(** * The policy-based scheduler coordinator (libcaf_core/caf/scheduler/coordinator.hpp)

    A shallow embedding of [coordinator<Policy>]: its worker pool, [start],
    [stop] with the shutdown sentinel, [enqueue], [worker_by_id] and [data].

    The coordinator's control thread is modelled as a computation over an
    explicit machine state that also records, in order, every call it makes to
    a collaborator.  The worker threads are the environment of that
    computation: which worker ends up executing a submitted sentinel is decided
    by a scheduling oracle, so that relocation by stealing is covered, and
    what the run loops have done to the queues by then is decided by a second
    oracle, so that jobs resumed while [stop] runs are covered. *)

From stdpp Require Import base option list gmap sets.

Set Default Proof Using "Type".
(* stdpp's set_solver clears hypotheses that are gone already. *)
Set Warnings "-clear-no-such-hyp".

(** ** Addresses and pointers *)

(** Objects live at addresses; a C++ pointer is either [nullptr] or an
    address. *)
Abbreviation addr := positive (only parsing).
Abbreviation pointer := (option positive) (only parsing).
Abbreviation nullptr := (@None positive) (only parsing).

(** A [resumable*] is identified by the address of the job. *)
Abbreviation resumable := positive (only parsing).

(** Modelled from the spec: [resumable::resume_result] is declared in
    resumable.hpp, which is not part of the sources; the spec lists the
    results Done, AwaitingMoreWork and ShutdownExecutionUnit. *)
Inductive resume_result : Type :=
| done
| awaiting_more_work
| shutdown_execution_unit.

(** ** Observable calls *)

(** Every call the coordinator (or the shutdown sentinel) makes to a
    collaborator, in program order. *)
Inductive event : Type :=
| ev_new_worker (w : addr) (id : nat) (parent : addr) (max_steps : nat)
| ev_worker_start (w : addr)
| ev_super_start
| ev_ref
| ev_external_enqueue (w : addr)
| ev_mtx_lock
| ev_store_last_worker (p : pointer)
| ev_cv_notify_all
| ev_mtx_unlock
| ev_cv_wait (reported : addr)
| ev_stop_actors
| ev_join (w : addr)
| ev_foreach_resumable (w : addr)
| ev_foreach_central_resumable
| ev_cleanup_and_release (job : resumable)
| ev_central_enqueue (job : resumable).

Global Instance event_eq_dec : EqDecision event.
Proof. solve_decision. Defined.

(** ** Ways in which a call does not return normally *)

Inductive fault : Type :=
| undefined_behaviour   (* out-of-range [operator[]] *)
| assertion_failure     (* a failed CAF_ASSERT with runtime checks enabled *)
| system_error          (* join of a thread that is not joinable *)
| blocks_forever        (* a wait or join that nothing will ever release *)
| out_of_fuel.          (* the model's bound on loop iterations was reached *)

Inductive result (A : Type) : Type :=
| Ok (a : A)
| Fault (f : fault).
Arguments Ok {A} a.
Arguments Fault {A} f.

(** ** The policy interface *)

(** Modelled from the spec: [Policy] is the template parameter of the
    coordinator; section 4.3 of the spec gives the operations the coordinator
    requires.  [central_enqueue] receives the coordinator, hence may touch the
    coordinator data and, through [worker_by_id], the policy data of each
    worker (given here by index).  [foreach_resumable] and
    [foreach_central_resumable] return the jobs they pass to the callback, in
    order, together with the policy data they leave behind; they must visit
    every job that is currently queued. *)
Class Policy : Type := {
  coordinator_data : Type;
  worker_data : Type;
  coordinator_data_ctor : addr → coordinator_data;
  worker_data_ctor : addr → worker_data;
  central_enqueue :
    coordinator_data → list worker_data → resumable →
    coordinator_data * list worker_data;
  worker_queue : worker_data → list resumable;
  central_queue : coordinator_data → list resumable;
  foreach_resumable : worker_data → list resumable * worker_data;
  foreach_central_resumable :
    coordinator_data → list resumable * coordinator_data;
  foreach_resumable_visits d :
    (foreach_resumable d).1 ≡ₚ worker_queue d;
  foreach_central_resumable_visits d :
    (foreach_central_resumable d).1 ≡ₚ central_queue d;
}.

(** ** Workers *)

Inductive thread_state : Type :=
| no_thread      (* default-constructed std::thread *)
| running        (* the run loop is executing *)
| finished       (* the run loop has returned, the thread is joinable *)
| joined.

Global Instance thread_state_eq_dec : EqDecision thread_state.
Proof. solve_decision. Defined.

Section coordinator.
Context `{policy : Policy}.

(** Modelled from the spec: [worker<Policy>] is declared in worker.hpp, which
    is not part of the sources.  A worker is constructed from its index, a
    back-reference to the coordinator and the maximal number of steps per
    resume; it owns one thread and its policy data. *)
Record worker : Type := Worker {
  id_ : nat;
  parent_ : addr;
  w_max_throughput_ : nat;
  this_thread_ : thread_state;
  w_data_ : worker_data;
}.

(** [std::unique_ptr<worker_type>]: the address of the owned object, and the
    object. *)
Record unique_ptr : Type := UniquePtr {
  get : addr;
  pointee : worker;
}.

Definition worker_ctor (i : nat) (parent : addr) (max_steps : nat) : worker :=
  {| id_ := i; parent_ := parent; w_max_throughput_ := max_steps;
     this_thread_ := no_thread; w_data_ := worker_data_ctor parent |}.

Definition set_thread (t : thread_state) (w : worker) : worker :=
  {| id_ := id_ w; parent_ := parent_ w;
     w_max_throughput_ := w_max_throughput_ w;
     this_thread_ := t; w_data_ := w_data_ w |}.

Definition set_w_data (d : worker_data) (w : worker) : worker :=
  {| id_ := id_ w; parent_ := parent_ w;
     w_max_throughput_ := w_max_throughput_ w;
     this_thread_ := this_thread_ w; w_data_ := d |}.

Definition map_pointee (f : worker → worker) (u : unique_ptr) : unique_ptr :=
  {| get := get u; pointee := f (pointee u) |}.

(** ** The shutdown sentinel *)

(** [shutdown_helper], the class local to [stop]: a mutex, a condition
    variable (the number of [notify_all] calls it has seen), the last
    reporting worker, and the count inherited from [ref_counted]. *)
Record shutdown_helper : Type := ShutdownHelper {
  mtx : bool;
  cv : nat;
  last_worker : pointer;
  rc_ : nat;
}.

(** ** The coordinator object *)

Record coordinator : Type := Coordinator {
  this : addr;
  num_workers_ : nat;
  max_throughput_ : nat;
  workers_ : list unique_ptr;
  data_ : coordinator_data;
}.

(** The machine on which the control thread runs: the coordinator, the
    sentinel in the frame of [stop], and the calls made so far. *)
Record machine : Type := Machine {
  self : coordinator;
  sh : shutdown_helper;
  trace : list event;
}.

(** ** The state-and-fault monad of the control thread *)

Definition M (A : Type) : Type := machine → result A * machine.

Definition ret {A} (a : A) : M A := λ m, (Ok a, m).

Definition bind {A B} (c : M A) (k : A → M B) : M B :=
  λ m, match c m with
       | (Ok a, m') => k a m'
       | (Fault f, m') => (Fault f, m')
       end.

Definition fail {A} (f : fault) : M A := λ m, (Fault f, m).

#[local] Instance M_ret : MRet M := @ret.
#[local] Instance M_bind : MBind M := λ A B k c, bind c k.

Definition get_self : M coordinator := λ m, (Ok (self m), m).
Definition put_self (c : coordinator) : M unit :=
  λ m, (Ok tt, {| self := c; sh := sh m; trace := trace m |}).
Definition get_sh : M shutdown_helper := λ m, (Ok (sh m), m).
Definition put_sh (h : shutdown_helper) : M unit :=
  λ m, (Ok tt, {| self := self m; sh := h; trace := trace m |}).
Definition emit (e : event) : M unit :=
  λ m, (Ok tt, {| self := self m; sh := sh m; trace := trace m ++ [e] |}).

Fixpoint for_each {A} (l : list A) (body : A → M unit) : M unit :=
  match l with
  | [] => ret tt
  | x :: l' => body x ;; for_each l' body
  end.

(** ** Field updates *)

Definition set_workers (ws : list unique_ptr) (c : coordinator) : coordinator :=
  {| this := this c; num_workers_ := num_workers_ c;
     max_throughput_ := max_throughput_ c; workers_ := ws; data_ := data_ c |}.

Definition set_data (d : coordinator_data) (c : coordinator) : coordinator :=
  {| this := this c; num_workers_ := num_workers_ c;
     max_throughput_ := max_throughput_ c; workers_ := workers_ c; data_ := d |}.

Definition set_mtx (b : bool) (h : shutdown_helper) : shutdown_helper :=
  {| mtx := b; cv := cv h; last_worker := last_worker h; rc_ := rc_ h |}.

Definition set_cv (n : nat) (h : shutdown_helper) : shutdown_helper :=
  {| mtx := mtx h; cv := n; last_worker := last_worker h; rc_ := rc_ h |}.

Definition set_last_worker (p : pointer) (h : shutdown_helper) : shutdown_helper :=
  {| mtx := mtx h; cv := cv h; last_worker := p; rc_ := rc_ h |}.

Definition set_rc (n : nat) (h : shutdown_helper) : shutdown_helper :=
  {| mtx := mtx h; cv := cv h; last_worker := last_worker h; rc_ := n |}.

(** ** What the surrounding system supplies *)

(** [CAF_ASSERT] is defined in config.hpp, which is not part of the sources:
    whether runtime checks are compiled in is a parameter. *)
Variable caf_enable_runtime_checks : bool.

(** The count a freshly constructed [ref_counted] object starts with
    (ref_counted.hpp is not part of the sources). *)
Variable rc_initial : nat.

(** [new]: the address handed out for the next worker, given the addresses of
    the workers that are live. *)
Variable new_addr : list addr → addr.

(** The worker threads: [sched ws target] is the worker that ends up
    executing a job submitted to [target] when the pool is [ws].  It need not
    be [target], since the policy may relocate jobs by stealing.  Every
    iteration of the drain loop of [stop] meets a different pool (one more
    run loop has returned), so a function of the pool covers every sequence
    of choices the threads can make during one call. *)
Variable sched : list unique_ptr → addr → addr.

(** The jobs the worker threads resume while the control thread runs:
    [work w d ds] is the policy data of the coordinator and of the workers,
    by position, that the run loops have left by the time worker [w] resumes
    the sentinel, when they started from [d] and [ds].  Jobs may have been
    dequeued, stolen, resumed and queued again in between; the coordinator
    cannot tell, and no call of the control thread before the cleanup pass
    reads the policy data.  A worker reports once, so a function of the
    reporting worker covers every sequence of changes during one call. *)
Variable work :
  addr → coordinator_data → list worker_data →
  coordinator_data * list worker_data.

(** ** Members inherited from [abstract_coordinator] *)

(** Modelled from the spec: abstract_coordinator.hpp is not part of the
    sources.  [num_workers()] reads the configured worker count;
    [super::start()], [stop_actors()] and [cleanup_and_release(ptr)] are calls
    to collaborators and are recorded as such. *)
Definition num_workers : M nat := c ← get_self; mret (num_workers_ c).
Definition super_start : M unit := emit ev_super_start.
Definition stop_actors : M unit := emit ev_stop_actors.
Definition cleanup_and_release (job : resumable) : M unit :=
  emit (ev_cleanup_and_release job).

(** ** Construction and accessors *)

(** [coordinator(actor_system& sys) : super(sys), data_(this)] *)
Definition coordinator_ctor (this_addr : addr) (num max_steps : nat)
  : coordinator :=
  {| this := this_addr; num_workers_ := num; max_throughput_ := max_steps;
     workers_ := []; data_ := coordinator_data_ctor this_addr |}.

(** [workers_[x]]: [operator[]] does no bounds check, so an index outside the
    vector is undefined behaviour. *)
Definition workers_at (x : nat) : M unique_ptr :=
  c ← get_self;
  match workers_ c !! x with
  | Some u => mret u
  | None => fail undefined_behaviour
  end.

(** [worker_type* worker_by_id(size_t x) { return workers_[x].get(); }] *)
Definition worker_by_id (x : nat) : M addr :=
  u ← workers_at x; mret (get u).

(** [policy_data& data() { return data_; }] *)
Definition data : M coordinator_data :=
  c ← get_self; mret (data_ c).

(** In-place update of the object owned by [workers_[x]]. *)
Definition modify_worker (x : nat) (f : worker → worker) : M unit :=
  u ← workers_at x;
  c ← get_self;
  put_self (set_workers (<[x := map_pointee f u]> (workers_ c)) c).

(** [for (auto& w : workers_) body(w)], by position. *)
Definition for_each_worker (body : nat → M unit) : M unit :=
  c ← get_self; for_each (seq 0 (length (workers_ c))) body.

(** ** Worker operations used by the coordinator *)

(** Modelled from the spec (section 4.2; worker.hpp is not part of the
    sources): [start()] spawns the owning thread, which begins the run
    loop. *)
Definition worker_start (x : nat) : M unit :=
  u ← workers_at x;
  emit (ev_worker_start (get u)) ;;
  modify_worker x (set_thread running).

(** Modelled from the spec: [get_thread().join()] returns once the run loop
    of the worker has returned; it never returns while the loop keeps
    running, and joining a thread that is not joinable is an error. *)
Definition worker_join (x : nat) : M unit :=
  u ← workers_at x;
  match this_thread_ (pointee u) with
  | finished =>
      emit (ev_join (get u)) ;;
      modify_worker x (set_thread joined)
  | running => fail blocks_forever
  | _ => fail system_error
  end.

(** Modelled from the spec: [w->external_enqueue(&sh)] hands the sentinel to
    the policy on behalf of the worker at [target]; what happens to it next
    is up to the worker threads. *)
Definition external_enqueue (target : addr) : M unit :=
  emit (ev_external_enqueue target).

(** ** [coordinator::start] *)

(** [workers_.emplace_back(new worker_type(i, this, max_throughput_))] *)
Definition emplace_back_new_worker (i : nat) : M unit :=
  c ← get_self;
  let a := new_addr (get <$> workers_ c) in
  emit (ev_new_worker a i (this c) (max_throughput_ c)) ;;
  put_self
    (set_workers
       (workers_ c ++
        [{| get := a; pointee := worker_ctor i (this c) (max_throughput_ c) |}])
       c).

Definition start : M unit :=
  (* initialize workers vector *)
  num ← num_workers;
  for_each (seq 0 num) emplace_back_new_worker ;;
  (* start all workers now that all workers have been initialized *)
  for_each_worker worker_start ;;
  (* run remaining startup code *)
  super_start.

(** ** [coordinator::enqueue] *)

(** Writing back the policy data of the workers, position by position; the
    policy reaches the workers only through [worker_by_id]. *)
Definition put_worker_data (ds : list worker_data) (ws : list unique_ptr)
  : list unique_ptr :=
  imap (λ i u, match ds !! i with
               | Some d => map_pointee (set_w_data d) u
               | None => u
               end) ws.

(** [policy_.central_enqueue(this, ptr)] *)
Definition policy_central_enqueue (job : resumable) : M unit :=
  c ← get_self;
  emit (ev_central_enqueue job) ;;
  let r := central_enqueue (data_ c) (w_data_ ∘ pointee <$> workers_ c) job in
  put_self (set_workers (put_worker_data r.2 (workers_ c)) (set_data r.1 c)).

Definition enqueue (ptr : resumable) : M unit :=
  policy_central_enqueue ptr.

(** ** [shutdown_helper] *)

(** [shutdown_helper() : last_worker(nullptr)] *)
Definition shutdown_helper_ctor : shutdown_helper :=
  {| mtx := false; cv := 0; last_worker := nullptr; rc_ := rc_initial |}.

(** [CAF_ASSERT(cond)] *)
Definition caf_assert (cond : bool) : M unit :=
  if caf_enable_runtime_checks && negb cond
  then fail assertion_failure
  else mret tt.

(** [std::unique_lock<std::mutex> guard(mtx)]: acquiring a mutex that is
    held blocks until it is released; the computations below release what
    they acquire, so a mutex found held stays held. *)
Definition mtx_lock : M unit :=
  h ← get_sh;
  if mtx h then fail blocks_forever
  else emit ev_mtx_lock ;; put_sh (set_mtx true h).

(** The destructor of the guard. *)
Definition mtx_unlock : M unit :=
  h ← get_sh;
  emit ev_mtx_unlock ;; put_sh (set_mtx false h).

Definition store_last_worker (p : pointer) : M unit :=
  h ← get_sh;
  emit (ev_store_last_worker p) ;; put_sh (set_last_worker p h).

Definition cv_notify_all : M unit :=
  h ← get_sh;
  emit ev_cv_notify_all ;; put_sh (set_cv (S (cv h)) h).

(** [resumable::resume_result resume(execution_unit* ptr, size_t) override] *)
Definition shutdown_helper_resume (ptr : pointer) (max_steps : nat)
  : M resume_result :=
  caf_assert (bool_decide (ptr ≠ nullptr)) ;;
  mtx_lock ;;
  store_last_worker ptr ;;
  cv_notify_all ;;
  mtx_unlock ;;
  mret shutdown_execution_unit.

(** [sh.ref()] *)
Definition sh_ref : M unit :=
  h ← get_sh;
  emit ev_ref ;; put_sh (set_rc (S (rc_ h)) h).

(** [sh.cv.wait(guard, [&] { return sh.last_worker != nullptr; })]: returns
    once the predicate holds; nothing else in the model changes the sentinel
    while the control thread waits, so a wait whose predicate fails never
    returns. *)
Definition cv_wait : M unit :=
  h ← get_sh;
  match last_worker h with
  | Some w => emit (ev_cv_wait w)
  | None => fail blocks_forever
  end.

(** ** [std::set<worker_type*>] *)

(** [*s.begin()]: the least element; dereferencing [begin()] of an empty set
    is undefined. *)
Definition set_begin (s : gset addr) : option addr :=
  foldr (λ x acc, Some (from_option (Pos.min x) x acc)) None (elements s).

(** [s.erase(p)] for a possibly null [p]. *)
Definition set_erase (p : pointer) (s : gset addr) : gset addr :=
  match p with
  | Some a => s ∖ {[a]}
  | None => s
  end.

(** ** The worker threads *)

Definition find_worker (a : addr) (ws : list unique_ptr) : option unique_ptr :=
  snd <$> list_find (λ u, get u = a) ws.

Definition is_running (ws : list unique_ptr) (a : addr) : Prop :=
  ∃ u, find_worker a ws = Some u ∧ this_thread_ (pointee u) = running.

Definition set_thread_of (a : addr) (t : thread_state) (ws : list unique_ptr)
  : list unique_ptr :=
  (λ u, if decide (get u = a) then map_pointee (set_thread t) u else u) <$> ws.

(** Modelled from the spec (sections 2 and 8; worker.hpp is not part of the
    sources): the run loops dequeue or steal jobs and resume them.  This is
    what they have done to the queues when worker [w] gets to the
    sentinel. *)
Definition workers_resume_jobs (w : addr) : M unit :=
  c ← get_self;
  let r := work w (data_ c) (w_data_ ∘ pointee <$> workers_ c) in
  put_self (set_workers (put_worker_data r.2 (workers_ c)) (set_data r.1 c)).

(** Modelled from the spec (worker.hpp is not part of the sources): the run
    loop of a worker resumes a job it has dequeued or stolen and, when the
    job returns ShutdownExecutionUnit, terminates.  Only a worker whose run
    loop is executing can resume anything. *)
Definition worker_run_sh (w : addr) : M unit :=
  c ← get_self;
  match find_worker w (workers_ c) with
  | Some u =>
      match this_thread_ (pointee u) with
      | running =>
          workers_resume_jobs w ;;
          res ← shutdown_helper_resume (Some w) (w_max_throughput_ (pointee u));
          match res with
          | shutdown_execution_unit =>
              c' ← get_self;
              put_self (set_workers (set_thread_of w finished (workers_ c')) c')
          | _ => mret tt
          end
      | _ => mret tt
      end
  | None => mret tt
  end.

(** What the worker threads do with a sentinel submitted to [target]: the
    worker the schedule picks resumes it, after the jobs that the run loops
    got to before.  When nobody resumes the sentinel, [stop] does not get
    past its wait, and what the run loops go on doing is not observed by it
    any more. *)
Definition workers_run (target : addr) : M unit :=
  c ← get_self;
  worker_run_sh (sched (workers_ c) target).

(** ** [coordinator::stop] *)

(** [for (size_t i = 0; i < num; ++i) {
       alive_workers.insert(worker_by_id(i)); sh.ref(); }] *)
Fixpoint insert_workers (ids : list nat) (alive_workers : gset addr)
  : M (gset addr) :=
  match ids with
  | [] => mret alive_workers
  | i :: ids' =>
      w ← worker_by_id i;
      sh_ref ;;
      insert_workers ids' ({[w]} ∪ alive_workers)
  end.

(** [while (!alive_workers.empty()) { ... }], with a bound on the number of
    iterations. *)
Fixpoint drain (fuel : nat) (alive_workers : gset addr) : M (gset addr) :=
  if decide (alive_workers = ∅) then mret alive_workers
  else
    match fuel with
    | 0 => fail out_of_fuel
    | S fuel' =>
        match set_begin alive_workers with
        | None => fail undefined_behaviour
        | Some target =>
            external_enqueue target ;;
            workers_run target ;;
            mtx_lock ;; cv_wait ;; mtx_unlock ;;
            h ← get_sh;
            put_sh (set_last_worker nullptr h) ;;
            drain fuel' (set_erase (last_worker h) alive_workers)
        end
    end.

(** [policy_.foreach_resumable(w.get(), f)] with
    [f = &abstract_coordinator::cleanup_and_release] *)
Definition policy_foreach_resumable (x : nat) : M unit :=
  u ← workers_at x;
  emit (ev_foreach_resumable (get u)) ;;
  let r := foreach_resumable (w_data_ (pointee u)) in
  for_each r.1 cleanup_and_release ;;
  modify_worker x (set_w_data r.2).

(** [policy_.foreach_central_resumable(this, f)] *)
Definition policy_foreach_central_resumable : M unit :=
  c ← get_self;
  emit ev_foreach_central_resumable ;;
  let r := foreach_central_resumable (data_ c) in
  for_each r.1 cleanup_and_release ;;
  c' ← get_self;
  put_self (set_data r.2 c').

Definition stop (fuel : nat) : M unit :=
  (* use a set to keep track of remaining workers *)
  put_sh shutdown_helper_ctor ;;
  num ← num_workers;
  alive_workers ← insert_workers (seq 0 num) ∅;
  drain fuel alive_workers ;;
  (* shutdown utility actors *)
  stop_actors ;;
  (* wait until all workers are done *)
  for_each_worker worker_join ;;
  (* run cleanup code for each resumable *)
  for_each_worker policy_foreach_resumable ;;
  policy_foreach_central_resumable.

(** ** Vocabulary of the properties *)

(** The pool as a sequence of owned addresses. *)
Definition pool (c : coordinator) : list addr := get <$> workers_ c.

(** The state [start] establishes and in which [stop] is meant to be called:
    the pool has the configured size, distinct objects have distinct
    addresses, and the run loop of every worker is executing. *)
Record started (c : coordinator) : Prop := {
  started_size : length (workers_ c) = num_workers_ c;
  started_NoDup : NoDup (pool c);
  started_running :
    Forall (λ u, this_thread_ (pointee u) = running) (workers_ c);
}.

(** The liveness contract on the policy (section 4.1 of the spec): a job
    submitted to a live worker is executed by some live worker. *)
Definition sched_live : Prop :=
  ∀ ws target, is_running ws target → is_running ws (sched ws target).

(** The calls of one iteration of the drain loop that submits the sentinel to
    [it.1] and is told that [it.2] executed it: the submission, the
    sentinel's [resume] on the worker thread, and the wait on the control
    thread. *)
Definition iteration_events (it : addr * addr) : list event :=
  [ev_external_enqueue it.1;
   ev_mtx_lock; ev_store_last_worker (Some it.2); ev_cv_notify_all;
   ev_mtx_unlock;
   ev_mtx_lock; ev_cv_wait it.2; ev_mtx_unlock].

(** A run of the drain loop from the set [alive]: each iteration submits to
    the first element of the current set and removes the reported worker,
    itself an element of the current set; the run ends when the set is
    empty. *)
Fixpoint drain_schedule (alive : gset addr) (its : list (addr * addr)) : Prop :=
  match its with
  | [] => alive = ∅
  | it :: its' =>
      set_begin alive = Some it.1 ∧ it.2 ∈ alive ∧
      drain_schedule (alive ∖ {[it.2]}) its'
  end.

(** The coordinator [c] holding the policy data [r]: the coordinator data,
    and the data of the workers, position by position. *)
Definition with_policy_data (r : coordinator_data * list worker_data)
    (c : coordinator) : coordinator :=
  {| this := this c; num_workers_ := num_workers_ c;
     max_throughput_ := max_throughput_ c;
     workers_ :=
       imap (λ i u,
               {| get := get u;
                  pointee :=
                    {| id_ := id_ (pointee u); parent_ := parent_ (pointee u);
                       w_max_throughput_ := w_max_throughput_ (pointee u);
                       this_thread_ := this_thread_ (pointee u);
                       w_data_ :=
                         default (w_data_ (pointee u)) (r.2 !! i) |} |})
            (workers_ c);
     data_ := r.1 |}.

(** The coordinator as the run loops have left it when worker [w] resumes
    the sentinel, and after the reports of the workers [ws], in order. *)
Definition worked (w : addr) (c : coordinator) : coordinator :=
  with_policy_data (work w (data_ c) (w_data_ ∘ pointee <$> workers_ c)) c.

Definition works (ws : list addr) (c : coordinator) : coordinator :=
  foldl (λ c w, worked w c) c ws.

(** The coordinator once the run loop of worker [v] has returned. *)
Definition retired (v : addr) (c : coordinator) : coordinator :=
  set_workers (set_thread_of v finished (workers_ c)) c.

(** The pool once the run loops of the workers in [alive] have returned. *)
Definition finish_all (alive : gset addr) (ws : list unique_ptr)
  : list unique_ptr :=
  (λ u, if decide (get u ∈ alive)
        then map_pointee (set_thread finished) u else u) <$> ws.

(** The calls of [policy_.foreach_resumable(w.get(), f)] on one worker, and
    of [policy_.foreach_central_resumable(this, f)]. *)
Definition cleanup_events (u : unique_ptr) : list event :=
  ev_foreach_resumable (get u) ::
  (ev_cleanup_and_release <$> (foreach_resumable (w_data_ (pointee u))).1).

Definition central_cleanup_events (c : coordinator) : list event :=
  ev_foreach_central_resumable ::
  (ev_cleanup_and_release <$> (foreach_central_resumable (data_ c)).1).

(** The phases of [stop], as the calls they make. *)
Definition ref_phase (c : coordinator) : list event :=
  replicate (num_workers_ c) ev_ref.

Definition drain_phase (its : list (addr * addr)) : list event :=
  its ≫= iteration_events.

Definition join_phase (c : coordinator) : list event :=
  ev_join <$> pool c.

Definition cleanup_phase (c : coordinator) : list event :=
  concat (cleanup_events <$> workers_ c) ++ central_cleanup_events c.

(** A worker after [stop]: its thread is joined and its queue has been
    handed to the cleanup callback. *)
Definition stopped (u : unique_ptr) : unique_ptr :=
  map_pointee
    (λ w, set_w_data (foreach_resumable (w_data_ w)).2 (set_thread joined w)) u.

(** The addresses [new] hands out for [n] workers constructed in a row when
    the workers at [live] exist already. *)
Fixpoint new_addrs (n : nat) (live : list addr) : list addr :=
  match n with
  | 0 => []
  | S n' => let a := new_addr live in a :: new_addrs n' (live ++ [a])
  end.

(** [new] never hands out the address of a live object. *)
Definition new_addr_fresh : Prop := ∀ live, new_addr live ∉ live.

(** The pool [start] builds for the coordinator [c], and the calls it makes. *)
Definition constructed (c : coordinator) (i : nat) (a : addr) : unique_ptr :=
  {| get := a; pointee := worker_ctor i (this c) (max_throughput_ c) |}.

Definition launched (c : coordinator) (i : nat) (a : addr) : unique_ptr :=
  map_pointee (set_thread running) (constructed c i a).

Definition construct_phase (c : coordinator) (addrs : list addr) : list event :=
  imap (λ i a, ev_new_worker a i (this c) (max_throughput_ c)) addrs.

Definition launch_phase (addrs : list addr) : list event :=
  ev_worker_start <$> addrs.

(** What the pool is made of: for each position, the owned address and the
    identity the worker was constructed with. *)
Definition pool_identity (c : coordinator) : list (addr * nat * addr * nat) :=
  (λ u, (get u, id_ (pointee u), parent_ (pointee u),
         w_max_throughput_ (pointee u))) <$> workers_ c.

(** [m'] is reached from [m] by calls in [P] that leave the pool in place. *)
Definition extends (P : event → Prop) (m m' : machine) : Prop :=
  pool_identity (self m') = pool_identity (self m) ∧
  ∃ l, trace m' = trace m ++ l ∧ Forall P l.

(** Whatever its outcome, [c] only makes calls in [P] and leaves the pool in
    place. *)
Definition steps {A} (P : event → Prop) (c : M A) : Prop :=
  ∀ m, extends P m (c m).2.

(** The part of the coordinator's life a call belongs to. *)
Inductive phase : Type :=
| in_start | in_enqueue | in_ref | in_drain | in_stop_actors | in_join
| in_cleanup.

Definition phase_of (e : event) : phase :=
  match e with
  | ev_new_worker _ _ _ _ | ev_worker_start _ | ev_super_start => in_start
  | ev_central_enqueue _ => in_enqueue
  | ev_ref => in_ref
  | ev_external_enqueue _ | ev_mtx_lock | ev_store_last_worker _
  | ev_cv_notify_all | ev_mtx_unlock | ev_cv_wait _ => in_drain
  | ev_stop_actors => in_stop_actors
  | ev_join _ => in_join
  | ev_foreach_resumable _ | ev_foreach_central_resumable
  | ev_cleanup_and_release _ => in_cleanup
  end.

(** The calls [stop] makes once the drain loop has returned. *)
Definition after_drain (e : event) : Prop :=
  phase_of e = in_stop_actors ∨ phase_of e = in_join ∨ phase_of e = in_cleanup.

(** The worker a call reports as having executed the sentinel: the store by
    the sentinel's [resume], and the value the control thread wakes up to. *)
Definition reports (e : event) : gset addr :=
  match e with
  | ev_store_last_worker (Some w) | ev_cv_wait w => {[w]}
  | _ => ∅
  end.

Definition reported (l : list event) : gset addr := ⋃ (reports <$> l).

(** Every submission in [l] goes to an element of the alive set as it is at
    that moment: [alive] less the workers reported so far. *)
Fixpoint submissions_alive (alive : gset addr) (l : list event) : Prop :=
  match l with
  | [] => True
  | e :: l' =>
      match e with ev_external_enqueue t => t ∈ alive | _ => True end ∧
      submissions_alive (alive ∖ reports e) l'
  end.

(** The machine on entry to the drain loop of [stop] called on [m]: the
    sentinel is fresh except for the references taken for the workers. *)
Definition entering_drain (m : machine) : machine :=
  {| self := self m;
     sh := set_rc (num_workers_ (self m) + rc_initial) shutdown_helper_ctor;
     trace := trace m ++ ref_phase (self m) |}.

(** The machine when the drain loop of [stop] called on [m] returns after
    the iterations [its]: every run loop has returned, and the queues are
    what the run loops have left. *)
Definition drained (its : list (addr * addr)) (m : machine) : machine :=
  {| self := set_workers
               (map_pointee (set_thread finished) <$>
                  workers_ (works its.*2 (self m)))
               (works its.*2 (self m));
     sh := {| mtx := false; cv := length its; last_worker := nullptr;
              rc_ := num_workers_ (self m) + rc_initial |};
     trace := trace m ++ ref_phase (self m) ++ drain_phase its |}.

(** The workers a run submits the sentinel to, and the workers the control
    thread is told about when it wakes up, in order. *)
Definition submitted_to (l : list event) : list addr :=
  omap (λ e, match e with ev_external_enqueue t => Some t | _ => None end) l.

Definition woken_by (l : list event) : list addr :=
  omap (λ e, match e with ev_cv_wait w => Some w | _ => None end) l.

(** The jobs handed to the cleanup callback, and the calls that enumerate a
    queue, in order. *)
Definition cleaned (l : list event) : list resumable :=
  omap (λ e, match e with ev_cleanup_and_release j => Some j | _ => None end) l.

Definition enumerations (l : list event) : list event :=
  omap (λ e, match e with
             | ev_foreach_resumable _ | ev_foreach_central_resumable => Some e
             | _ => None
             end) l.

(** The jobs queued in the coordinator: those in the local queue of each
    worker, then those in the central queue. *)
Definition queued (c : coordinator) : list resumable :=
  concat (worker_queue ∘ w_data_ ∘ pointee <$> workers_ c) ++
  central_queue (data_ c).

(** Modelled from the spec (shared ownership by reference counting, section
    9): ref_counted.hpp is not part of the sources.  Releasing a reference
    decrements the count; the release that takes the last reference destroys
    the object ([None]). *)
Definition sh_release (h : shutdown_helper) : option shutdown_helper :=
  match rc_ h with
  | 0 | 1 => None
  | S n => Some (set_rc n h)
  end.

Fixpoint release_times (k : nat) (h : shutdown_helper) : option shutdown_helper :=
  match k with
  | 0 => Some h
  | S k' => h' ← sh_release h; release_times k' h'
  end.

(** The values stored in [last_worker], in the order of the stores. *)
Definition stored_by (l : list event) : list pointer :=
  omap (λ e, match e with ev_store_last_worker p => Some p | _ => None end) l.

(** A run of the drain loop from [alive]: complete iterations, each
    submitting to the first element of what is left of the set, followed
    either by nothing or by one submission that nobody answers, with the
    thread of [stop] holding the mutex in [cv.wait]. *)
Fixpoint drain_run (alive : gset addr) (its : list (addr * addr))
    (tail : list event) : Prop :=
  match its with
  | [] =>
      tail = [] ∨
      ∃ target, set_begin alive = Some target ∧
                tail = [ev_external_enqueue target; ev_mtx_lock]
  | it :: its' =>
      set_begin alive = Some it.1 ∧ drain_run (alive ∖ {[it.2]}) its' tail
  end.

(** * Properties *)

(** [set_solver] tries every function of the context on the terms at hand;
    the allocator, the schedule and the run loops are kept out of its
    way. *)
Ltac env_set_solver :=
  try clear new_addr; try clear sched; try clear work; set_solver.

(** ** The ordered set *)

Lemma foldr_min_spec (l : list addr) :
  match foldr (λ x acc, Some (from_option (Pos.min x) x acc)) None l with
  | None => l = []
  | Some x => x ∈ l ∧ ∀ y, y ∈ l → (x ≤ y)%positive
  end.
Proof.
  induction l as [|a l IH]; simpl; [done|].
  destruct (foldr _ None l) as [b|]; simpl.
  - destruct IH as [Hb Hmin]. split.
    + destruct (Pos.min_spec a b) as [[_ ->]|[_ ->]]; env_set_solver.
    + intros y [->|Hy]%elem_of_cons; [lia|].
      specialize (Hmin y Hy). lia.
  - subst l. split; [env_set_solver|].
    intros y ->%list_elem_of_singleton. lia.
Qed.

Lemma set_begin_Some (s : gset addr) x :
  set_begin s = Some x → x ∈ s ∧ ∀ y, y ∈ s → (x ≤ y)%positive.
Proof.
  unfold set_begin. intros H.
  pose proof (foldr_min_spec (elements s)) as Hs. rewrite H in Hs.
  destruct Hs as [Hx Hmin]. split; [by apply elem_of_elements|].
  intros y Hy. apply Hmin. by apply elem_of_elements.
Qed.

Lemma set_begin_None (s : gset addr) : set_begin s = None → s = ∅.
Proof.
  unfold set_begin. intros H.
  pose proof (foldr_min_spec (elements s)) as Hs. rewrite H in Hs.
  by apply elements_empty_inv, leibniz_equiv in Hs.
Qed.

Lemma set_begin_is_Some (s : gset addr) : s ≠ ∅ → is_Some (set_begin s).
Proof.
  intros Hne. destruct (set_begin s) eqn:E; [eauto|].
  by apply set_begin_None in E.
Qed.

(** ** Running a computation *)

Ltac unfold_M :=
  unfold mbind, mret, M_bind, M_ret, bind, ret, fail,
    get_self, put_self, get_sh, put_sh, emit in *.

Lemma bind_Ok {A B} (c : M A) (k : A → M B) m a m' :
  c m = (Ok a, m') → (c ≫= k) m = k a m'.
Proof. unfold_M. by intros ->. Qed.

Lemma bind_Fault {A B} (c : M A) (k : A → M B) m f m' :
  c m = (Fault f, m') → (c ≫= k) m = (Fault f, m').
Proof. unfold_M. by intros ->. Qed.

(** ** The sentinel's [resume] *)

Lemma shutdown_helper_resume_ok (w : addr) (max_steps : nat) (m : machine) :
  mtx (sh m) = false →
  shutdown_helper_resume (Some w) max_steps m =
    (Ok shutdown_execution_unit,
     {| self := self m;
        sh := {| mtx := false; cv := S (cv (sh m));
                 last_worker := Some w; rc_ := rc_ (sh m) |};
        trace := trace m ++ [ev_mtx_lock; ev_store_last_worker (Some w);
                             ev_cv_notify_all; ev_mtx_unlock] |}).
Proof.
  intros Hfree.
  unfold shutdown_helper_resume, caf_assert, mtx_lock, store_last_worker,
    cv_notify_all, mtx_unlock.
  rewrite bool_decide_eq_true_2 by done.
  rewrite andb_false_r. unfold_M. simpl. rewrite Hfree. simpl.
  by rewrite <- !app_assoc.
Qed.

Lemma shutdown_helper_resume_result (ptr : pointer) (max_steps : nat) m r m' :
  shutdown_helper_resume ptr max_steps m = (Ok r, m') →
  r = shutdown_execution_unit ∧ last_worker (sh m') = ptr.
Proof.
  unfold shutdown_helper_resume, caf_assert, mtx_lock, store_last_worker,
    cv_notify_all, mtx_unlock.
  unfold_M.
  destruct (caf_enable_runtime_checks && _); simpl; [discriminate|].
  destruct (mtx (sh m)); simpl; [discriminate|].
  by intros [= <- <-].
Qed.

(** ** Looking workers up by address *)

Lemma find_worker_cons a u ws :
  find_worker a (u :: ws) =
    if decide (get u = a) then Some u else find_worker a ws.
Proof.
  unfold find_worker. simpl. case_decide; [done|].
  by destruct (list_find _ ws) as [[??]|].
Qed.

Lemma find_worker_Some a ws u :
  find_worker a ws = Some u → u ∈ ws ∧ get u = a.
Proof.
  induction ws as [|u' ws IH]; [done|].
  rewrite find_worker_cons. case_decide.
  - intros [= ->]. split; [left|done].
  - intros [??]%IH. split; [by right|done].
Qed.

Lemma find_worker_None a ws :
  find_worker a ws = None → a ∉ get <$> ws.
Proof.
  induction ws as [|u' ws IH]; [intros _; by apply not_elem_of_nil|].
  rewrite find_worker_cons. case_decide; [done|].
  intros Hn%IH. rewrite fmap_cons. rewrite not_elem_of_cons. done.
Qed.

Lemma find_worker_fmap (g : unique_ptr → unique_ptr) a ws :
  (∀ u, get (g u) = get u) →
  find_worker a (g <$> ws) = g <$> find_worker a ws.
Proof.
  intros Hg. induction ws as [|u ws IH]; [done|].
  rewrite fmap_cons, !find_worker_cons, Hg. by case_decide.
Qed.

Lemma find_worker_lookup ws i u :
  NoDup (get <$> ws) → ws !! i = Some u → find_worker (get u) ws = Some u.
Proof.
  revert i. induction ws as [|u' ws IH]; intros i Hnd Hi; [done|].
  rewrite fmap_cons in Hnd. apply NoDup_cons in Hnd as [Hnotin Hnd].
  rewrite find_worker_cons. destruct i as [|i]; simpl in Hi.
  - injection Hi as ->. by rewrite decide_True.
  - rewrite decide_False; [by eapply IH|].
    intros Heq. apply Hnotin. rewrite Heq.
    apply list_elem_of_fmap. exists u. split; [done|].
    by eapply list_elem_of_lookup_2.
Qed.

Lemma set_thread_of_get a t u :
  get (if decide (get u = a) then map_pointee (set_thread t) u else u) = get u.
Proof. by case_decide. Qed.

Lemma find_worker_set_thread_of a v t ws :
  find_worker a (set_thread_of v t ws) =
    (λ u, if decide (get u = v) then map_pointee (set_thread t) u else u)
      <$> find_worker a ws.
Proof. apply find_worker_fmap. intros u. apply set_thread_of_get. Qed.

Lemma is_running_finished ws v a :
  is_running (set_thread_of v finished ws) a ↔ is_running ws a ∧ a ≠ v.
Proof.
  unfold is_running. setoid_rewrite find_worker_set_thread_of.
  split.
  - intros (u' & Hu' & Hrun).
    destruct (find_worker a ws) as [u|] eqn:Hu; [|done].
    injection Hu' as <-. apply find_worker_Some in Hu as Hua.
    destruct Hua as [_ Hget]. case_decide as Hv; [done|].
    split; [eauto|congruence].
  - intros [(u & Hu & Hrun) Hne]. rewrite Hu. simpl.
    apply find_worker_Some in Hu as [_ Hget].
    rewrite decide_False by congruence. eauto.
Qed.

(** ** What the run loops leave in place *)

Lemma put_policy_data_eq r c :
  set_workers (put_worker_data r.2 (workers_ c)) (set_data r.1 c) =
  with_policy_data r c.
Proof.
  unfold with_policy_data, set_workers, set_data, put_worker_data. simpl.
  f_equal. apply imap_ext. intros i u _. simpl.
  destruct (r.2 !! i); by destruct u as [? []].
Qed.

Lemma workers_resume_jobs_ok w m :
  workers_resume_jobs w m =
    (Ok tt, {| self := worked w (self m); sh := sh m; trace := trace m |}).
Proof.
  unfold workers_resume_jobs. unfold_M. simpl.
  by rewrite put_policy_data_eq.
Qed.

Lemma pool_identity_with_policy_data r c :
  pool_identity (with_policy_data r c) = pool_identity c.
Proof.
  unfold pool_identity, with_policy_data. simpl. rewrite fmap_imap.
  rewrite (imap_ext _ (const (λ u, (get u, id_ (pointee u), parent_ (pointee u),
                                    w_max_throughput_ (pointee u))))) by done.
  by rewrite imap_const.
Qed.

Lemma pool_with_policy_data r c : pool (with_policy_data r c) = pool c.
Proof.
  unfold pool, with_policy_data. simpl. rewrite fmap_imap.
  rewrite (imap_ext _ (const get)) by done. by rewrite imap_const.
Qed.

Lemma threads_with_policy_data r c :
  this_thread_ ∘ pointee <$> workers_ (with_policy_data r c) =
  this_thread_ ∘ pointee <$> workers_ c.
Proof.
  unfold with_policy_data. simpl. rewrite fmap_imap.
  rewrite (imap_ext _ (const (this_thread_ ∘ pointee))) by done.
  by rewrite imap_const.
Qed.

Lemma policy_data_set_thread_of v t ws :
  w_data_ ∘ pointee <$> set_thread_of v t ws = w_data_ ∘ pointee <$> ws.
Proof.
  unfold set_thread_of. rewrite <- list_fmap_compose.
  apply list_fmap_ext. intros _ u _. simpl. by case_decide.
Qed.

Lemma is_running_same ws ws' a :
  Forall2 (λ u u', get u = get u' ∧
                   this_thread_ (pointee u) = this_thread_ (pointee u'))
          ws ws' →
  is_running ws a ↔ is_running ws' a.
Proof.
  unfold is_running. induction 1 as [|u u' ws ws' [Hget Hthread] _ IH].
  - done.
  - rewrite !find_worker_cons, <- Hget. case_decide; [|exact IH].
    split; intros (u0 & [= <-] & Hrun); eexists; (split; [done|]); congruence.
Qed.

Lemma is_running_with_policy_data r c a :
  is_running (workers_ (with_policy_data r c)) a ↔ is_running (workers_ c) a.
Proof.
  symmetry. apply is_running_same.
  apply Forall2_same_length_lookup_2.
  - unfold with_policy_data. simpl. by rewrite length_imap.
  - intros i u u' Hu Hu'. unfold with_policy_data in Hu'. simpl in Hu'.
    rewrite list_lookup_imap, Hu in Hu'. by injection Hu' as <-.
Qed.

Lemma is_running_worked w c a :
  is_running (workers_ (worked w c)) a ↔ is_running (workers_ c) a.
Proof. apply is_running_with_policy_data. Qed.

Lemma with_policy_data_retired r v c :
  with_policy_data r (retired v c) = retired v (with_policy_data r c).
Proof.
  unfold with_policy_data, retired, set_workers, set_thread_of. simpl.
  f_equal. rewrite imap_fmap, fmap_imap. apply imap_ext.
  intros i u _. simpl. by case_decide.
Qed.

Lemma worked_retired w v c : worked w (retired v c) = retired v (worked w c).
Proof.
  unfold worked. rewrite with_policy_data_retired. simpl.
  by rewrite policy_data_set_thread_of.
Qed.

Lemma works_retired rs v : ∀ c, works rs (retired v c) = retired v (works rs c).
Proof.
  induction rs as [|w rs IH]; intros c; [done|]. simpl.
  rewrite worked_retired. apply IH.
Qed.

Lemma pool_identity_works rs : ∀ c,
  pool_identity (works rs c) = pool_identity c.
Proof.
  induction rs as [|w rs IH]; intros c; [done|]. simpl.
  rewrite IH. apply pool_identity_with_policy_data.
Qed.

Lemma pool_works rs : ∀ c, pool (works rs c) = pool c.
Proof.
  induction rs as [|w rs IH]; intros c; [done|]. simpl.
  rewrite IH. apply pool_with_policy_data.
Qed.

Lemma length_works rs c : length (workers_ (works rs c)) = length (workers_ c).
Proof.
  pose proof (pool_works rs c) as H. apply (f_equal length) in H.
  unfold pool in H. by rewrite !length_fmap in H.
Qed.

Lemma threads_works rs : ∀ c,
  this_thread_ ∘ pointee <$> workers_ (works rs c) =
  this_thread_ ∘ pointee <$> workers_ c.
Proof.
  induction rs as [|w rs IH]; intros c; [done|]. simpl.
  rewrite IH. apply threads_with_policy_data.
Qed.


(** ** The drain loop under a live schedule *)

Lemma drain_unfold fuel alive :
  drain fuel alive =
    if decide (alive = ∅) then mret alive
    else
      match fuel with
      | 0 => fail out_of_fuel
      | S fuel' =>
          match set_begin alive with
          | None => fail undefined_behaviour
          | Some target =>
              external_enqueue target ;;
              workers_run target ;;
              mtx_lock ;; cv_wait ;; mtx_unlock ;;
              h ← get_sh;
              put_sh (set_last_worker nullptr h) ;;
              drain fuel' (set_erase (last_worker h) alive)
          end
      end.
Proof. by destruct fuel. Qed.

Lemma worker_run_sh_running w m :
  is_running (workers_ (self m)) w →
  mtx (sh m) = false →
  worker_run_sh w m =
    (Ok tt,
     {| self := retired w (worked w (self m));
        sh := {| mtx := false; cv := S (cv (sh m));
                 last_worker := Some w; rc_ := rc_ (sh m) |};
        trace := trace m ++ [ev_mtx_lock; ev_store_last_worker (Some w);
                             ev_cv_notify_all; ev_mtx_unlock] |}).
Proof.
  intros (u & Hu & Hrun) Hfree. unfold worker_run_sh.
  rewrite (bind_Ok _ _ m (self m) m) by done.
  rewrite Hu, Hrun.
  erewrite bind_Ok by apply workers_resume_jobs_ok.
  erewrite bind_Ok by by apply shutdown_helper_resume_ok.
  by unfold_M.
Qed.

Lemma drain_step fuel alive m target v :
  set_begin alive = Some target →
  sched (workers_ (self m)) target = v →
  is_running (workers_ (self m)) v →
  mtx (sh m) = false →
  drain (S fuel) alive m =
    drain fuel (alive ∖ {[v]})
      {| self := retired v (worked v (self m));
         sh := {| mtx := false; cv := S (cv (sh m));
                  last_worker := nullptr; rc_ := rc_ (sh m) |};
         trace := trace m ++ iteration_events (target, v) |}.
Proof.
  intros Hbegin Hv Hrun Hfree. rewrite drain_unfold.
  rewrite decide_False; last first.
  { intros ->. by vm_compute in Hbegin. }
  rewrite Hbegin. unfold external_enqueue, workers_run.
  erewrite bind_Ok by done.
  erewrite bind_Ok; last first.
  { erewrite bind_Ok by done. simpl. rewrite Hv.
    apply worker_run_sh_running; done. }
  unfold mtx_lock, cv_wait, mtx_unlock. unfold_M. simpl.
  unfold iteration_events. simpl. by rewrite <- !app_assoc.
Qed.

Lemma finish_all_empty ws : finish_all ∅ ws = ws.
Proof.
  unfold finish_all. rewrite <- (list_fmap_id ws) at 2.
  apply list_fmap_ext. intros _ u _. by rewrite decide_False by env_set_solver.
Qed.

Lemma finish_all_step alive v ws :
  v ∈ alive →
  finish_all (alive ∖ {[v]}) (set_thread_of v finished ws) = finish_all alive ws.
Proof.
  intros Hv. unfold finish_all, set_thread_of. rewrite <- list_fmap_compose.
  apply list_fmap_ext. intros _ u _. simpl.
  destruct (decide (get u = v)) as [Heq|Hne]; simpl.
  - rewrite decide_False by env_set_solver.
    rewrite decide_True; [done|by rewrite Heq].
  - destruct (decide (get u ∈ alive)).
    + rewrite decide_True; [done|env_set_solver].
    + rewrite decide_False; [done|env_set_solver].
Qed.

Lemma drain_schedule_length alive its :
  drain_schedule alive its → length its = size alive.
Proof.
  revert alive. induction its as [|it its IH]; simpl; intros alive.
  - intros ->. by rewrite size_empty.
  - intros (_ & Hin & Hrest). rewrite (IH _ Hrest).
    rewrite size_difference by env_set_solver. rewrite size_singleton.
    assert (size alive ≠ 0); [|lia].
    intros Hz%size_empty_inv. env_set_solver.
Qed.

Lemma drain_schedule_reported alive its :
  drain_schedule alive its → its.*2 ≡ₚ elements alive.
Proof.
  revert alive. induction its as [|it its IH]; simpl; intros alive.
  - intros ->. by rewrite elements_empty.
  - intros (_ & Hin & Hrest). rewrite (IH _ Hrest).
    rewrite <- elements_union_singleton by env_set_solver.
    apply elements_proper. intros x.
    destruct (decide (x = it.2)); env_set_solver.
Qed.

Lemma drain_live fuel alive m :
  sched_live →
  size alive ≤ fuel →
  (∀ a, a ∈ alive ↔ is_running (workers_ (self m)) a) →
  mtx (sh m) = false →
  last_worker (sh m) = nullptr →
  ∃ its,
    drain_schedule alive its ∧
    drain fuel alive m =
      (Ok ∅,
       {| self := set_workers
                    (finish_all alive (workers_ (works its.*2 (self m))))
                    (works its.*2 (self m));
          sh := {| mtx := false; cv := length its + cv (sh m);
                   last_worker := nullptr; rc_ := rc_ (sh m) |};
          trace := trace m ++ (its ≫= iteration_events) |}).
Proof.
  intros Hlive. revert alive m.
  induction fuel as [|fuel IH]; intros alive m Hsize Hinv Hfree Hlast.
  - assert (alive = ∅) as ->.
    { apply leibniz_equiv, size_empty_inv. lia. }
    exists []. split; [done|]. rewrite drain_unfold, decide_True by done.
    rewrite finish_all_empty.
    destruct m as [[] [] ?]; simpl in *; subst.
    unfold_M. by rewrite app_nil_r.
  - destruct (decide (alive = ∅)) as [->|Hne].
    { exists []. split; [done|]. rewrite drain_unfold, decide_True by done.
      rewrite finish_all_empty.
      destruct m as [[] [] ?]; simpl in *; subst.
      unfold_M. by rewrite app_nil_r. }
    destruct (set_begin_is_Some alive Hne) as [target Hbegin].
    pose proof (set_begin_Some _ _ Hbegin) as [Htarget _].
    set (v := sched (workers_ (self m)) target).
    assert (is_running (workers_ (self m)) v) as Hrun.
    { apply Hlive. by apply Hinv. }
    assert (v ∈ alive) as Hv by by apply Hinv.
    rewrite (drain_step fuel alive m target v) by done.
    edestruct (IH (alive ∖ {[v]})) as (its & Hsched & ->); simpl.
    + rewrite size_difference by env_set_solver. rewrite size_singleton. lia.
    + intros a.
      change (a ∈ alive ∖ {[v]} ↔
              is_running
                (set_thread_of v finished (workers_ (worked v (self m)))) a).
      rewrite is_running_finished, is_running_worked, <- Hinv.
      env_set_solver.
    + done.
    + done.
    + exists ((target, v) :: its). split; [done|].
      simpl. rewrite works_retired. simpl.
      rewrite finish_all_step by done.
      rewrite <- app_assoc.
      by replace (length its + S (cv (sh m))) with (S (length its + cv (sh m)))
        by lia.
Qed.

(** ** Loops over the pool *)

Lemma workers_at_ok x u m :
  workers_ (self m) !! x = Some u → workers_at x m = (Ok u, m).
Proof. intros H. unfold workers_at. unfold_M. by rewrite H. Qed.

Lemma workers_at_undefined x m :
  workers_ (self m) !! x = None → workers_at x m = (Fault undefined_behaviour, m).
Proof. intros H. unfold workers_at. unfold_M. by rewrite H. Qed.

Lemma modify_worker_ok x u f m :
  workers_ (self m) !! x = Some u →
  modify_worker x f m =
    (Ok tt,
     {| self := set_workers (<[x := map_pointee f u]> (workers_ (self m)))
                            (self m);
        sh := sh m; trace := trace m |}).
Proof.
  intros H. unfold modify_worker.
  erewrite bind_Ok by by apply workers_at_ok. by unfold_M.
Qed.

Lemma for_each_emit {A} (l : list A) (ev : A → event) m :
  for_each l (λ x, emit (ev x)) m =
    (Ok tt, {| self := self m; sh := sh m; trace := trace m ++ (ev <$> l) |}).
Proof.
  revert m. induction l as [|x l IH]; intros m; simpl.
  - unfold_M. rewrite app_nil_r. by destruct m.
  - erewrite bind_Ok by done. rewrite IH. simpl.
    by rewrite <- app_assoc.
Qed.

Section for_each_worker.
Variable body : nat → M unit.
Variable P : unique_ptr → Prop.
Variable f : unique_ptr → unique_ptr.
Variable ev : unique_ptr → list event.
Hypothesis body_ok : ∀ x u m,
  workers_ (self m) !! x = Some u → P u →
  body x m =
    (Ok tt,
     {| self := set_workers (<[x := f u]> (workers_ (self m))) (self m);
        sh := sh m; trace := trace m ++ ev u |}).

Lemma for_each_from_ok later : ∀ before m,
  workers_ (self m) = before ++ later →
  Forall P later →
  for_each (seq (length before) (length later)) body m =
    (Ok tt,
     {| self := set_workers (before ++ (f <$> later)) (self m);
        sh := sh m; trace := trace m ++ concat (ev <$> later) |}).
Proof using body_ok.
  induction later as [|u later IH]; intros before m Hws HP; simpl.
  - unfold_M. rewrite app_nil_r in Hws. rewrite !app_nil_r, <- Hws.
    by destruct m as [[] ? ?].
  - apply Forall_cons in HP as [Hu HP].
    erewrite bind_Ok; last first.
    { apply body_ok; [|done]. rewrite Hws. by apply list_lookup_middle. }
    rewrite Hws.
    rewrite insert_app_r_alt by done. rewrite Nat.sub_diag. simpl.
    specialize (IH (before ++ [f u])).
    rewrite length_app in IH. simpl in IH.
    rewrite Nat.add_1_r in IH. rewrite IH; simpl.
    + by rewrite <- !app_assoc.
    + by rewrite <- app_assoc.
    + done.
Qed.

Lemma for_each_worker_ok m :
  Forall P (workers_ (self m)) →
  for_each_worker body m =
    (Ok tt,
     {| self := set_workers (f <$> workers_ (self m)) (self m);
        sh := sh m;
        trace := trace m ++ concat (ev <$> workers_ (self m)) |}).
Proof using body_ok.
  intros HP. unfold for_each_worker.
  erewrite bind_Ok by done.
  by apply (for_each_from_ok (workers_ (self m)) []).
Qed.
End for_each_worker.

Lemma worker_start_ok x u m :
  workers_ (self m) !! x = Some u →
  worker_start x m =
    (Ok tt,
     {| self := set_workers
                  (<[x := map_pointee (set_thread running) u]>
                     (workers_ (self m))) (self m);
        sh := sh m; trace := trace m ++ [ev_worker_start (get u)] |}).
Proof.
  intros Hx. unfold worker_start.
  erewrite bind_Ok by by apply workers_at_ok.
  erewrite bind_Ok by done.
  by erewrite modify_worker_ok by done.
Qed.

Lemma worker_join_ok x u m :
  workers_ (self m) !! x = Some u →
  this_thread_ (pointee u) = finished →
  worker_join x m =
    (Ok tt,
     {| self := set_workers
                  (<[x := map_pointee (set_thread joined) u]>
                     (workers_ (self m))) (self m);
        sh := sh m; trace := trace m ++ [ev_join (get u)] |}).
Proof.
  intros Hx Ht. unfold worker_join.
  erewrite bind_Ok by by apply workers_at_ok.
  rewrite Ht. erewrite bind_Ok by done.
  by erewrite modify_worker_ok by done.
Qed.

Lemma policy_foreach_resumable_ok x u m :
  workers_ (self m) !! x = Some u →
  policy_foreach_resumable x m =
    (Ok tt,
     {| self := set_workers
                  (<[x := map_pointee
                            (set_w_data
                               (foreach_resumable (w_data_ (pointee u))).2) u]>
                     (workers_ (self m))) (self m);
        sh := sh m; trace := trace m ++ cleanup_events u |}).
Proof.
  intros Hx. unfold policy_foreach_resumable.
  erewrite bind_Ok by by apply workers_at_ok.
  erewrite bind_Ok by done.
  erewrite bind_Ok by apply for_each_emit.
  erewrite modify_worker_ok by done. simpl.
  unfold cleanup_events. by rewrite <- app_assoc.
Qed.

(** ** [stop] from a started pool under a live schedule *)

Lemma insert_workers_ok n : ∀ k alive m,
  k + n ≤ length (workers_ (self m)) →
  insert_workers (seq k n) alive m =
    (Ok (list_to_set (take n (drop k (pool (self m)))) ∪ alive),
     {| self := self m; sh := set_rc (n + rc_ (sh m)) (sh m);
        trace := trace m ++ replicate n ev_ref |}).
Proof.
  induction n as [|n IH]; intros k alive m Hlen; simpl.
  - unfold_M. rewrite app_nil_r, union_empty_l_L.
    by destruct m as [? [] ?].
  - destruct (lookup_lt_is_Some_2 (workers_ (self m)) k) as [u Hu]; [lia|].
    unfold worker_by_id, sh_ref.
    erewrite bind_Ok; last first.
    { erewrite bind_Ok by by apply workers_at_ok. done. }
    erewrite bind_Ok by done.
    rewrite IH by (simpl; lia). simpl.
    assert (drop k (pool (self m)) = get u :: drop (S k) (pool (self m))) as ->.
    { apply drop_S. unfold pool. by rewrite list_lookup_fmap, Hu. }
    simpl. rewrite <- app_assoc. simpl.
    replace (n + S (rc_ (sh m))) with (S (n + rc_ (sh m))) by lia.
    do 2 f_equal. env_set_solver.
Qed.

Lemma started_alive c a :
  started c → a ∈ (list_to_set (pool c) : gset addr) ↔ is_running (workers_ c) a.
Proof.
  intros [_ _ Hrun]. rewrite elem_of_list_to_set. unfold is_running, pool.
  split.
  - intros Ha. destruct (find_worker a (workers_ c)) as [u|] eqn:Hu.
    + exists u. split; [done|].
      apply find_worker_Some in Hu as [Hin _].
      by eapply Forall_forall in Hrun.
    + by apply find_worker_None in Hu.
  - intros (u & Hu & _). apply find_worker_Some in Hu as [Hin <-].
    apply list_elem_of_fmap. eauto.
Qed.

Lemma finish_all_full (alive : gset addr) ws :
  (∀ u, u ∈ ws → get u ∈ alive) →
  finish_all alive ws = map_pointee (set_thread finished) <$> ws.
Proof.
  intros Hall. unfold finish_all. apply list_fmap_ext.
  intros i u Hu. rewrite decide_True; [done|].
  apply Hall. by eapply list_elem_of_lookup_2.
Qed.

Lemma insert_workers_started m :
  started (self m) →
  insert_workers (seq 0 (num_workers_ (self m))) ∅
    {| self := self m; sh := shutdown_helper_ctor; trace := trace m |} =
    (Ok (list_to_set (pool (self m))), entering_drain m).
Proof.
  intros [Hsize _ _].
  rewrite insert_workers_ok by (simpl; lia). simpl.
  rewrite drop_0, take_ge, union_empty_r_L; [done|].
  unfold pool. rewrite length_fmap. lia.
Qed.

Lemma stop_ok fuel m :
  sched_live →
  started (self m) →
  num_workers_ (self m) ≤ fuel →
  ∃ its,
    drain_schedule (list_to_set (pool (self m))) its ∧
    insert_workers (seq 0 (num_workers_ (self m))) ∅
      {| self := self m; sh := shutdown_helper_ctor; trace := trace m |} =
      (Ok (list_to_set (pool (self m))), entering_drain m) ∧
    drain fuel (list_to_set (pool (self m))) (entering_drain m) =
      (Ok ∅, drained its m) ∧
    stop fuel m =
      (Ok tt,
       {| self := set_data
                    (foreach_central_resumable
                       (data_ (works its.*2 (self m)))).2
                    (set_workers (stopped <$> workers_ (works its.*2 (self m)))
                                 (works its.*2 (self m)));
          sh := {| mtx := false; cv := length its; last_worker := nullptr;
                   rc_ := num_workers_ (self m) + rc_initial |};
          trace := trace m ++ ref_phase (self m) ++ drain_phase its ++
                   [ev_stop_actors] ++ join_phase (self m) ++
                   cleanup_phase (works its.*2 (self m)) |}).
Proof.
  intros Hlive Hst Hfuel. pose proof Hst as [Hsize Hnd Hrun].
  destruct (drain_live fuel (list_to_set (pool (self m))) (entering_drain m))
    as (its & Hits & Hdrain);
    [done| | |done|done|].
  { rewrite size_list_to_set by done. unfold pool.
    rewrite length_fmap. lia. }
  { intros a. by apply started_alive. }
  pose proof (insert_workers_started m Hst) as Hinsert.
  assert (drain fuel (list_to_set (pool (self m))) (entering_drain m) =
            (Ok ∅, drained its m)) as Hdrained.
  { rewrite Hdrain. unfold drained. simpl.
    rewrite finish_all_full; last first.
    { intros u Hu. apply elem_of_list_to_set.
      rewrite <- (pool_works its.*2). apply list_elem_of_fmap. eauto. }
    rewrite Nat.add_0_r, <- app_assoc. done. }
  exists its. split; [done|]. split; [done|]. split; [done|].
  unfold stop.
  erewrite bind_Ok by done.
  erewrite bind_Ok by done.
  erewrite bind_Ok by apply Hinsert.
  erewrite bind_Ok by apply Hdrained.
  unfold stop_actors. erewrite bind_Ok by done.
  erewrite bind_Ok; last first.
  { apply (for_each_worker_ok worker_join
             (λ u, this_thread_ (pointee u) = finished)
             (map_pointee (set_thread joined))
             (λ u, [ev_join (get u)])).
    - intros x u m' Hx Hfin. by apply worker_join_ok.
    - simpl. apply Forall_fmap, Forall_true. done. }
  erewrite bind_Ok; last first.
  { apply (for_each_worker_ok policy_foreach_resumable
             (λ _, True)
             (λ u, map_pointee
                     (set_w_data (foreach_resumable (w_data_ (pointee u))).2) u)
             cleanup_events).
    - intros x u m' Hx _. by apply policy_foreach_resumable_ok.
    - by apply Forall_true. }
  unfold policy_foreach_central_resumable.
  erewrite bind_Ok by done.
  erewrite bind_Ok by done.
  erewrite bind_Ok by apply for_each_emit.
  unfold_M. simpl.
  f_equal. f_equal.
  - unfold set_data, set_workers. simpl. f_equal.
    rewrite <- !list_fmap_compose. apply list_fmap_ext.
    intros _ u _. by destruct u as [? []].
  - rewrite <- !list_fmap_compose. rewrite <- !app_assoc.
    unfold drain_phase, join_phase, cleanup_phase, central_cleanup_events, pool.
    do 3 f_equal. simpl. f_equal.
    apply (f_equal2 (++)); [|apply (f_equal2 (++)); [|done]].
    + change (get <$> workers_ (self m)) with (pool (self m)).
      rewrite <- (pool_works its.*2). unfold pool.
      generalize (workers_ (works its.*2 (self m))). intros ws.
      induction ws as [|u ws IH]; [done|].
      simpl. f_equal. exact IH.
    + generalize (workers_ (works its.*2 (self m))). intros ws.
      induction ws as [|u ws IH]; [done|].
      simpl. by f_equal.
Qed.

(** ** [start] *)

Lemma length_new_addrs n live : length (new_addrs n live) = n.
Proof.
  revert live. induction n as [|n IH]; intros live; simpl; [done|].
  by rewrite IH.
Qed.

Lemma new_addrs_NoDup n live :
  new_addr_fresh → NoDup live → NoDup (live ++ new_addrs n live).
Proof.
  intros Hfresh. revert live.
  induction n as [|n IH]; intros live Hnd; simpl.
  - by rewrite app_nil_r.
  - rewrite cons_middle, app_assoc. apply IH.
    apply NoDup_app. split_and!; [done| |apply NoDup_singleton].
    intros x Hx ->%list_elem_of_singleton. by apply (Hfresh live).
Qed.

Lemma emplace_back_new_worker_ok i m :
  emplace_back_new_worker i m =
    (Ok tt,
     {| self := set_workers
                  (workers_ (self m) ++
                   [constructed (self m) i (new_addr (pool (self m)))])
                  (self m);
        sh := sh m;
        trace := trace m ++
                 [ev_new_worker (new_addr (pool (self m))) i (this (self m))
                    (max_throughput_ (self m))] |}).
Proof. unfold emplace_back_new_worker. by unfold_M. Qed.

Lemma emplace_back_loop_ok n : ∀ k m,
  for_each (seq k n) emplace_back_new_worker m =
    (Ok tt,
     {| self := set_workers
                  (workers_ (self m) ++
                   imap (λ i, constructed (self m) (k + i))
                        (new_addrs n (pool (self m))))
                  (self m);
        sh := sh m;
        trace := trace m ++
                 imap (λ i a, ev_new_worker a (k + i) (this (self m))
                                (max_throughput_ (self m)))
                      (new_addrs n (pool (self m))) |}).
Proof.
  induction n as [|n IH]; intros k m; simpl.
  - unfold_M. rewrite !app_nil_r. by destruct m as [[] ? ?].
  - erewrite bind_Ok by apply emplace_back_new_worker_ok.
    rewrite IH. simpl. unfold pool. simpl.
    rewrite fmap_app. simpl. rewrite <- !app_assoc. simpl.
    rewrite Nat.add_0_r.
    set (l := new_addrs n _).
    assert (imap (λ i, constructed
                         (set_workers
                            (workers_ (self m) ++
                             [constructed (self m) k
                                (new_addr (get <$> workers_ (self m)))])
                            (self m)) (S (k + i))) l
            = imap ((λ i, constructed (self m) (k + i)) ∘ S) l) as ->.
    { apply imap_ext. intros i a _. simpl. by rewrite Nat.add_succ_r. }
    assert (imap (λ i a, ev_new_worker a (S (k + i)) (this (self m))
                           (max_throughput_ (self m))) l
            = imap ((λ i a, ev_new_worker a (k + i) (this (self m))
                              (max_throughput_ (self m))) ∘ S) l) as ->.
    { apply imap_ext. intros i a _. simpl. by rewrite Nat.add_succ_r. }
    done.
Qed.

Lemma concat_singletons {A B} (g : A → B) (l : list A) :
  concat ((λ x, [g x]) <$> l) = g <$> l.
Proof. induction l as [|x l IH]; [done|]. simpl. f_equal. exact IH. Qed.

Lemma launched_pool c addrs : get <$> imap (launched c) addrs = addrs.
Proof.
  rewrite fmap_imap.
  rewrite (imap_ext _ (const id)) by done.
  by rewrite imap_const, list_fmap_id.
Qed.

Lemma launched_lookup c addrs i :
  imap (launched c) addrs !! i = launched c i <$> addrs !! i.
Proof. apply list_lookup_imap. Qed.

Lemma start_ok m :
  workers_ (self m) = [] →
  let addrs := new_addrs (num_workers_ (self m)) [] in
  start m =
    (Ok tt,
     {| self := set_workers (imap (launched (self m)) addrs) (self m);
        sh := sh m;
        trace := trace m ++ construct_phase (self m) addrs ++
                 launch_phase addrs ++ [ev_super_start] |}).
Proof.
  intros Hempty addrs. unfold start.
  erewrite bind_Ok by done.
  erewrite bind_Ok by apply emplace_back_loop_ok.
  erewrite bind_Ok; last first.
  { apply (for_each_worker_ok worker_start
             (λ _, True)
             (map_pointee (set_thread running))
             (λ u, [ev_worker_start (get u)])).
    - intros x u m' Hx _. by apply worker_start_ok.
    - by apply Forall_true. }
  unfold super_start. unfold_M. simpl. unfold pool. rewrite Hempty. simpl.
  fold addrs. f_equal. f_equal.
  - unfold set_workers. simpl. f_equal.
    rewrite fmap_imap. done.
  - rewrite <- !app_assoc. unfold construct_phase, launch_phase.
    do 2 f_equal. f_equal.
    rewrite (concat_singletons (ev_worker_start ∘ get)).
    rewrite list_fmap_compose. f_equal.
    rewrite fmap_imap, (imap_ext _ (const id)) by done.
    by rewrite imap_const, list_fmap_id.
Qed.


Lemma start_started m :
  new_addr_fresh → workers_ (self m) = [] → started (self (start m).2).
Proof.
  intros Hfresh Hempty. rewrite start_ok by done. simpl.
  split; simpl.
  - by rewrite length_imap, length_new_addrs.
  - unfold pool. simpl. rewrite launched_pool.
    by apply (new_addrs_NoDup _ []), NoDup_nil.
  - apply Forall_forall. intros u (i & Hi)%list_elem_of_lookup_1.
    rewrite launched_lookup in Hi.
    destruct (new_addrs _ _ !! i); by simplify_eq/=.
Qed.

(** ** What every run leaves in place *)

Lemma extends_refl P m : extends P m m.
Proof. split; [done|]. exists []. by rewrite app_nil_r. Qed.

Lemma extends_frame P m m' :
  self m' = self m → trace m' = trace m → extends P m m'.
Proof.
  intros Hs Ht. split; [by rewrite Hs|]. exists []. by rewrite app_nil_r.
Qed.

Lemma extends_trans P m1 m2 m3 :
  extends P m1 m2 → extends P m2 m3 → extends P m1 m3.
Proof.
  intros [Hp1 (l1 & Ht1 & Hl1)] [Hp2 (l2 & Ht2 & Hl2)].
  split; [congruence|]. exists (l1 ++ l2).
  split; [by rewrite Ht2, Ht1, app_assoc|by apply Forall_app].
Qed.

Lemma extends_mono (P Q : event → Prop) m m' :
  (∀ e, P e → Q e) → extends P m m' → extends Q m m'.
Proof.
  intros HPQ [Hp (l & Ht & Hl)]. split; [done|].
  exists l. split; [done|]. by eapply Forall_impl.
Qed.

Lemma steps_mono {A} (P Q : event → Prop) (c : M A) :
  (∀ e, P e → Q e) → steps P c → steps Q c.
Proof. intros HPQ Hc m. by eapply extends_mono. Qed.

Lemma steps_ret {A} P (a : A) : steps P (mret a : M A).
Proof. intros m. apply extends_refl. Qed.

Lemma steps_fail {A} P f : steps P (fail f : M A).
Proof. intros m. apply extends_refl. Qed.

Lemma steps_bind {A B} P (c : M A) (k : A → M B) :
  steps P c → (∀ a, steps P (k a)) → steps P (c ≫= k).
Proof.
  intros Hc Hk m. specialize (Hc m). unfold_M.
  destruct (c m) as [[a|f] m']; simpl in *; [|done].
  eapply extends_trans; [done|apply Hk].
Qed.

Lemma steps_get_self P : steps P get_self.
Proof. intros m. apply extends_refl. Qed.

Lemma steps_get_sh P : steps P get_sh.
Proof. intros m. apply extends_refl. Qed.

Lemma steps_put_sh P h : steps P (put_sh h).
Proof. intros m. by apply extends_frame. Qed.

Lemma steps_emit (P : event → Prop) e : P e → steps P (emit e).
Proof.
  intros He m. split; [done|]. exists [e]. split; [done|].
  by apply Forall_singleton.
Qed.

Lemma steps_for_each {A} P (l : list A) (body : A → M unit) :
  (∀ x, steps P (body x)) → steps P (for_each l body).
Proof.
  intros Hbody. induction l as [|x l IH]; simpl.
  - apply steps_ret.
  - apply steps_bind; [apply Hbody|by intros _].
Qed.

Lemma steps_workers_at P x : steps P (workers_at x).
Proof.
  intros m. unfold workers_at. unfold_M.
  destruct (workers_ (self m) !! x); apply extends_refl.
Qed.

Lemma pool_identity_insert (ws : list unique_ptr) (x : nat) u
    (f : worker → worker) :
  ws !! x = Some u →
  (∀ w, id_ (f w) = id_ w ∧ parent_ (f w) = parent_ w ∧
        w_max_throughput_ (f w) = w_max_throughput_ w) →
  (λ u, (get u, id_ (pointee u), parent_ (pointee u),
         w_max_throughput_ (pointee u))) <$> <[x := map_pointee f u]> ws =
  (λ u, (get u, id_ (pointee u), parent_ (pointee u),
         w_max_throughput_ (pointee u))) <$> ws.
Proof.
  intros Hx Hf. rewrite list_fmap_insert. apply list_insert_id.
  rewrite list_lookup_fmap, Hx. simpl.
  destruct (Hf (pointee u)) as (-> & -> & ->). done.
Qed.

Lemma steps_modify_worker P x (f : worker → worker) :
  (∀ w, id_ (f w) = id_ w ∧ parent_ (f w) = parent_ w ∧
        w_max_throughput_ (f w) = w_max_throughput_ w) →
  steps P (modify_worker x f).
Proof.
  intros Hf m. unfold modify_worker, workers_at. unfold_M.
  destruct (workers_ (self m) !! x) as [u|] eqn:Hx; simpl;
    [|apply extends_refl].
  split; [|exists []; by rewrite app_nil_r].
  unfold pool_identity. simpl. by apply pool_identity_insert.
Qed.

Lemma steps_update_self P (g : coordinator → coordinator) :
  (∀ c, pool_identity (g c) = pool_identity c) →
  steps P (c ← get_self; put_self (g c)).
Proof.
  intros Hg m. unfold_M. simpl. split; [apply Hg|].
  exists []. by rewrite app_nil_r.
Qed.

Ltac steps_go :=
  repeat first
    [ apply steps_ret | apply steps_fail | apply steps_get_self
    | apply steps_get_sh | apply steps_put_sh | apply steps_workers_at
    | apply steps_emit
    | apply steps_for_each; intros ?
    | apply steps_modify_worker; by intros []
    | apply steps_bind; [|intros ?]
    | match goal with
      | |- steps _ (match ?x with _ => _ end) => destruct x
      end ];
  eauto.

Lemma steps_worker_by_id P x : steps P (worker_by_id x).
Proof. unfold worker_by_id. steps_go. Qed.

Lemma steps_worker_join P x :
  (∀ a, P (ev_join a)) → steps P (worker_join x).
Proof. intros HP. unfold worker_join. steps_go. Qed.

Lemma steps_sh_ref (P : event → Prop) : P ev_ref → steps P sh_ref.
Proof. intros HP. unfold sh_ref. steps_go. Qed.

Lemma steps_insert_workers (P : event → Prop) ids alive :
  P ev_ref → steps P (insert_workers ids alive).
Proof.
  intros HP. revert alive. induction ids as [|i ids IH]; intros alive; simpl.
  - apply steps_ret.
  - apply steps_bind; [apply steps_worker_by_id|intros w].
    apply steps_bind; [by apply steps_sh_ref|intros _]. apply IH.
Qed.

Lemma steps_resume P ptr max_steps :
  (∀ e, phase_of e = in_drain → P e) →
  steps P (shutdown_helper_resume ptr max_steps).
Proof.
  intros HP.
  unfold shutdown_helper_resume, caf_assert, mtx_lock, store_last_worker,
    cv_notify_all, mtx_unlock.
  steps_go.
Qed.

Lemma pool_identity_set_thread_of a t c :
  pool_identity (set_workers (set_thread_of a t (workers_ c)) c) =
  pool_identity c.
Proof.
  unfold pool_identity, set_thread_of. simpl.
  rewrite <- list_fmap_compose. apply list_fmap_ext.
  intros _ u _. simpl. by case_decide.
Qed.

Lemma steps_worker_run_sh P w :
  (∀ e, phase_of e = in_drain → P e) → steps P (worker_run_sh w).
Proof.
  intros HP. unfold worker_run_sh.
  apply steps_bind; [apply steps_get_self|intros c].
  destruct (find_worker w (workers_ c)) as [u|]; [|apply steps_ret].
  destruct (this_thread_ (pointee u)); try apply steps_ret.
  apply steps_bind; [|intros _].
  { unfold workers_resume_jobs. apply steps_update_self.
    intros c'. rewrite put_policy_data_eq.
    apply pool_identity_with_policy_data. }
  apply steps_bind; [by apply steps_resume|intros res].
  destruct res; try apply steps_ret.
  apply steps_update_self. intros c'. apply pool_identity_set_thread_of.
Qed.

Lemma steps_workers_run P target :
  (∀ e, phase_of e = in_drain → P e) → steps P (workers_run target).
Proof.
  intros HP. unfold workers_run.
  apply steps_bind; [apply steps_get_self|intros c].
  by apply steps_worker_run_sh.
Qed.

Lemma steps_drain P fuel alive :
  (∀ e, phase_of e = in_drain → P e) → steps P (drain fuel alive).
Proof.
  intros HP. revert alive.
  induction fuel as [|fuel IH]; intros alive; rewrite drain_unfold;
    case_decide; try apply steps_ret; try apply steps_fail.
  destruct (set_begin alive) as [target|]; [|apply steps_fail].
  unfold external_enqueue, mtx_lock, cv_wait, mtx_unlock.
  apply steps_bind; [by apply steps_emit, HP|intros _].
  apply steps_bind; [by apply steps_workers_run|intros _].
  steps_go.
Qed.

Lemma steps_policy_foreach_resumable P x :
  (∀ e, phase_of e = in_cleanup → P e) →
  steps P (policy_foreach_resumable x).
Proof.
  intros HP. unfold policy_foreach_resumable, cleanup_and_release. steps_go.
Qed.

Lemma steps_policy_foreach_central_resumable P :
  (∀ e, phase_of e = in_cleanup → P e) →
  steps P policy_foreach_central_resumable.
Proof.
  intros HP. unfold policy_foreach_central_resumable, cleanup_and_release.
  apply steps_bind; [apply steps_get_self|intros c].
  apply steps_bind; [by apply steps_emit, HP|intros _].
  apply steps_bind; [|intros _].
  { apply steps_for_each. intros job. by apply steps_emit, HP. }
  by apply steps_update_self.
Qed.

Lemma pool_identity_put_worker_data ds d c :
  pool_identity (set_workers (put_worker_data ds (workers_ c)) (set_data d c)) =
  pool_identity c.
Proof.
  unfold pool_identity, put_worker_data. simpl.
  rewrite fmap_imap.
  rewrite (imap_ext _ (const (λ u, (get u, id_ (pointee u), parent_ (pointee u),
                                    w_max_throughput_ (pointee u))))).
  - by rewrite imap_const.
  - intros i u _. simpl. by destruct (ds !! i).
Qed.

Lemma steps_policy_central_enqueue (P : event → Prop) job :
  P (ev_central_enqueue job) → steps P (policy_central_enqueue job).
Proof.
  intros HP m. unfold policy_central_enqueue. unfold_M. simpl.
  split; [apply pool_identity_put_worker_data|].
  exists [ev_central_enqueue job]. split; [done|]. by apply Forall_singleton.
Qed.

Lemma policy_central_enqueue_threads job m :
  this_thread_ ∘ pointee <$> workers_ (self (policy_central_enqueue job m).2) =
  this_thread_ ∘ pointee <$> workers_ (self m).
Proof.
  unfold policy_central_enqueue, put_worker_data. unfold_M. simpl.
  rewrite fmap_imap.
  rewrite (imap_ext _ (const (this_thread_ ∘ pointee))).
  - by rewrite imap_const.
  - intros i u _. simpl. by destruct (_ !! i).
Qed.

Lemma steps_for_each_worker P (body : nat → M unit) :
  (∀ x, steps P (body x)) → steps P (for_each_worker body).
Proof.
  intros Hbody. unfold for_each_worker.
  apply steps_bind; [apply steps_get_self|intros c].
  by apply steps_for_each.
Qed.

Lemma steps_after_drain :
  steps after_drain
    (stop_actors ;;
     for_each_worker worker_join ;;
     for_each_worker policy_foreach_resumable ;;
     policy_foreach_central_resumable).
Proof.
  unfold stop_actors.
  apply steps_bind; [apply steps_emit; by left|intros _].
  apply steps_bind; [|intros _].
  { apply steps_for_each_worker. intros x. apply steps_worker_join.
    intros a. right. by left. }
  apply steps_bind; [|intros _].
  { apply steps_for_each_worker. intros x.
    apply steps_policy_foreach_resumable. intros e He. right. by right. }
  apply steps_policy_foreach_central_resumable. intros e He. right. by right.
Qed.

Lemma steps_stop fuel : steps (λ _, True) (stop fuel).
Proof.
  unfold stop.
  apply steps_bind; [apply steps_put_sh|intros _].
  apply steps_bind; [unfold num_workers; steps_go|intros num].
  apply steps_bind; [by apply steps_insert_workers|intros alive].
  apply steps_bind; [by apply steps_drain|intros _].
  eapply steps_mono; [|apply steps_after_drain]. done.
Qed.

(** ** Submissions go to workers that have not reported *)

Lemma submissions_alive_mono (A B : gset addr) l :
  A ⊆ B → submissions_alive A l → submissions_alive B l.
Proof.
  revert A B. induction l as [|e l IH]; intros A B HAB; simpl; [done|].
  intros [He Hl]. split.
  - destruct e; try done. env_set_solver.
  - eapply IH; [|done]. env_set_solver.
Qed.

Lemma submissions_alive_app (A : gset addr) l1 l2 :
  submissions_alive A (l1 ++ l2) ↔
  submissions_alive A l1 ∧ submissions_alive (A ∖ reported l1) l2.
Proof.
  revert A. induction l1 as [|e l1 IH]; intros A; simpl.
  - change (reported []) with (∅ : gset addr).
    rewrite difference_empty_L. tauto.
  - change (reported (e :: l1)) with (reports e ∪ reported l1).
    rewrite IH, difference_difference_l_L. tauto.
Qed.

Lemma submissions_alive_quiet (A : gset addr) l :
  Forall (λ e, phase_of e ≠ in_drain) l → submissions_alive A l.
Proof.
  revert A. induction l as [|e l IH]; intros A; simpl; [done|].
  intros [He Hl]%Forall_cons. split; [by destruct e|by apply IH].
Qed.

Lemma reported_quiet l :
  Forall (λ e, phase_of e ≠ in_drain) l → reported l = ∅.
Proof.
  induction l as [|e l IH]; [done|].
  intros [He Hl]%Forall_cons.
  change (reported (e :: l)) with (reports e ∪ reported l).
  rewrite IH by done. destruct e; try done; env_set_solver.
Qed.

Lemma submissions_alive_split (A : gset addr) l1 t l2 :
  submissions_alive A (l1 ++ ev_external_enqueue t :: l2) →
  t ∈ A ∧ t ∉ reported l1.
Proof.
  rewrite submissions_alive_app. simpl. env_set_solver.
Qed.

Global Instance is_running_dec ws a : Decision (is_running ws a).
Proof.
  unfold is_running.
  destruct (find_worker a ws) as [u|];
    [destruct (decide (this_thread_ (pointee u) = running))|].
  - left. eauto.
  - right. intros (u' & [= <-] & ?). done.
  - right. intros (u' & [=] & ?).
Defined.

Lemma worker_run_sh_idle w m :
  ¬ is_running (workers_ (self m)) w → worker_run_sh w m = (Ok tt, m).
Proof.
  intros Hidle. unfold worker_run_sh, is_running in *.
  erewrite bind_Ok by done.
  destruct (find_worker w (workers_ (self m))) as [u|]; [|done].
  destruct (this_thread_ (pointee u)) eqn:Ht; try done.
  destruct Hidle. eauto.
Qed.

Lemma drain_stuck fuel alive m target :
  set_begin alive = Some target →
  ¬ is_running (workers_ (self m)) (sched (workers_ (self m)) target) →
  mtx (sh m) = false →
  last_worker (sh m) = nullptr →
  drain (S fuel) alive m =
    (Fault blocks_forever,
     {| self := self m; sh := set_mtx true (sh m);
        trace := trace m ++ [ev_external_enqueue target; ev_mtx_lock] |}).
Proof.
  intros Hbegin Hidle Hfree Hlast. rewrite drain_unfold.
  rewrite decide_False; last first.
  { intros ->. by vm_compute in Hbegin. }
  rewrite Hbegin. unfold external_enqueue, workers_run.
  erewrite bind_Ok by done.
  erewrite bind_Ok; last first.
  { erewrite bind_Ok by done. by apply worker_run_sh_idle. }
  unfold mtx_lock, cv_wait. unfold_M. simpl. rewrite Hfree. simpl.
  rewrite Hlast. by rewrite <- app_assoc.
Qed.

Lemma drain_submissions fuel : ∀ alive m,
  mtx (sh m) = false →
  last_worker (sh m) = nullptr →
  ∃ l, trace (drain fuel alive m).2 = trace m ++ l ∧
       submissions_alive alive l.
Proof.
  induction fuel as [|fuel IH]; intros alive m Hfree Hlast.
  { exists []. rewrite drain_unfold. case_decide; by rewrite app_nil_r. }
  destruct (decide (alive = ∅)) as [->|Hne].
  { exists []. rewrite drain_unfold, decide_True by done.
    by rewrite app_nil_r. }
  destruct (set_begin_is_Some alive Hne) as [target Hbegin].
  pose proof (set_begin_Some _ _ Hbegin) as [Htarget _].
  set (v := sched (workers_ (self m)) target).
  destruct (decide (is_running (workers_ (self m)) v)) as [Hrun|Hidle].
  - rewrite (drain_step fuel alive m target v) by done.
    edestruct (IH (alive ∖ {[v]})) as (l & -> & Hl); [| |]; [done..|].
    exists (iteration_events (target, v) ++ l). simpl.
    split; [by rewrite <- app_assoc|].
    split; [done|]. repeat (split; [done|]).
    eapply submissions_alive_mono; [|done]. env_set_solver.
  - rewrite (drain_stuck fuel alive m target) by done.
    exists [ev_external_enqueue target; ev_mtx_lock]. simpl.
    by repeat split.
Qed.

Lemma insert_workers_any ids : ∀ alive m,
  self (insert_workers ids alive m).2 = self m ∧
  mtx (sh (insert_workers ids alive m).2) = mtx (sh m) ∧
  last_worker (sh (insert_workers ids alive m).2) = last_worker (sh m) ∧
  (∃ l, trace (insert_workers ids alive m).2 = trace m ++ l ∧
        Forall (λ e, phase_of e ≠ in_drain) l) ∧
  (∀ A, (insert_workers ids alive m).1 = Ok A →
        A ⊆ list_to_set (pool (self m)) ∪ alive).
Proof.
  induction ids as [|i ids IH]; intros alive m; simpl.
  - unfold_M. simpl. split_and!; try done.
    + exists []. by rewrite app_nil_r.
    + intros A [= <-]. env_set_solver.
  - unfold worker_by_id, workers_at, sh_ref. unfold_M. simpl.
    destruct (workers_ (self m) !! i) as [u|] eqn:Hu; simpl.
    + match goal with |- context [insert_workers ids ?A ?m'] =>
        destruct (IH A m') as (Hs & Hm & Hl & (l & Ht & HF) & HA);
        destruct (insert_workers ids A m') as [[A'|f] m''] eqn:E
      end; simpl in *.
      * split_and!; try done.
        -- exists (ev_ref :: l). rewrite Ht, <- app_assoc.
           split; [done|]. by apply Forall_cons.
        -- intros A [= <-]. specialize (HA _ eq_refl).
           assert (get u ∈ pool (self m)).
           { apply list_elem_of_fmap. exists u. split; [done|].
             by eapply list_elem_of_lookup_2. }
           env_set_solver.
      * split_and!; try done.
        exists (ev_ref :: l). rewrite Ht, <- app_assoc.
        split; [done|]. by apply Forall_cons.
    + split_and!; try done. exists []. by rewrite app_nil_r.
Qed.

Lemma stop_submissions fuel m :
  ∃ l, trace (stop fuel m).2 = trace m ++ l ∧
       submissions_alive (list_to_set (pool (self m))) l.
Proof.
  unfold stop.
  erewrite bind_Ok by done. erewrite bind_Ok by done.
  set (m0 := {| self := self m; sh := shutdown_helper_ctor; trace := trace m |}).
  destruct (insert_workers_any (seq 0 (num_workers_ (self m))) ∅ m0)
    as (Hs & Hm & Hl & (l1 & Ht1 & HF1) & HA).
  destruct (insert_workers _ _ m0) as [[A|f] m1] eqn:E1; simpl in *;
    last first.
  { erewrite bind_Fault by done. exists l1. simpl.
    split; [done|]. by apply submissions_alive_quiet. }
  erewrite bind_Ok by done.
  destruct (drain_submissions fuel A m1) as (l2 & Ht2 & HS2);
    [congruence..|].
  specialize (HA _ eq_refl). rewrite union_empty_r_L in HA.
  destruct (drain fuel A m1) as [[A'|f] m2] eqn:E2; simpl in *; last first.
  { erewrite bind_Fault by done. exists (l1 ++ l2). simpl.
    rewrite Ht2, Ht1, <- app_assoc. split; [done|].
    apply submissions_alive_app. split; [by apply submissions_alive_quiet|].
    rewrite reported_quiet, difference_empty_L by done.
    by eapply submissions_alive_mono. }
  erewrite bind_Ok by done.
  destruct (steps_after_drain m2) as [_ (l3 & Ht3 & HF3)].
  exists (l1 ++ l2 ++ l3). rewrite Ht3, Ht2, Ht1, <- !app_assoc.
  split; [done|].
  apply submissions_alive_app. split; [by apply submissions_alive_quiet|].
  rewrite reported_quiet, difference_empty_L by done.
  apply submissions_alive_app. split; [by eapply submissions_alive_mono|].
  apply submissions_alive_quiet. eapply Forall_impl; [done|].
  intros e [He|[He|He]]; by rewrite He.
Qed.

(** ** The calls of each phase *)

Lemma ref_phase_in_ref c : Forall (λ e, phase_of e = in_ref) (ref_phase c).
Proof. unfold ref_phase. by apply Forall_replicate. Qed.

Lemma drain_phase_in_drain its :
  Forall (λ e, phase_of e = in_drain) (drain_phase its).
Proof.
  unfold drain_phase. induction its as [|it its IH]; [done|].
  simpl. by repeat (apply Forall_cons; split; [done|]).
Qed.

Lemma join_phase_in_join c : Forall (λ e, phase_of e = in_join) (join_phase c).
Proof. unfold join_phase. apply Forall_fmap. by apply Forall_true. Qed.

Lemma cleanup_phase_in_cleanup c :
  Forall (λ e, phase_of e = in_cleanup) (cleanup_phase c).
Proof.
  unfold cleanup_phase, central_cleanup_events. apply Forall_app. split.
  - apply Forall_concat, Forall_fmap, Forall_true. intros u. simpl.
    unfold cleanup_events. apply Forall_cons. split; [done|].
    apply Forall_fmap. by apply Forall_true.
  - apply Forall_cons. split; [done|].
    apply Forall_fmap. by apply Forall_true.
Qed.

Lemma submitted_to_app l1 l2 :
  submitted_to (l1 ++ l2) = submitted_to l1 ++ submitted_to l2.
Proof. apply omap_app. Qed.

Lemma woken_by_app l1 l2 : woken_by (l1 ++ l2) = woken_by l1 ++ woken_by l2.
Proof. apply omap_app. Qed.

Lemma cleaned_app l1 l2 : cleaned (l1 ++ l2) = cleaned l1 ++ cleaned l2.
Proof. apply omap_app. Qed.

Lemma enumerations_app l1 l2 :
  enumerations (l1 ++ l2) = enumerations l1 ++ enumerations l2.
Proof. apply omap_app. Qed.

Lemma outside_drain l :
  Forall (λ e, phase_of e ≠ in_drain) l → submitted_to l = [] ∧ woken_by l = [].
Proof.
  induction l as [|e l IH]; [done|].
  intros [He [H1 H2]%IH]%Forall_cons.
  split; destruct e; try done; simpl; assumption.
Qed.

Lemma stored_by_app l1 l2 : stored_by (l1 ++ l2) = stored_by l1 ++ stored_by l2.
Proof. apply omap_app. Qed.

Lemma stored_by_drain_phase its :
  stored_by (drain_phase its) = Some <$> its.*2.
Proof.
  unfold drain_phase, stored_by. induction its as [|it its IH]; [done|].
  simpl. f_equal. exact IH.
Qed.

Lemma stored_by_outside_drain l :
  Forall (λ e, phase_of e ≠ in_drain) l → stored_by l = [].
Proof.
  induction l as [|e l IH]; [done|].
  intros [He H%IH]%Forall_cons. destruct e; try done; simpl; assumption.
Qed.

Lemma outside_cleanup l :
  Forall (λ e, phase_of e ≠ in_cleanup) l → cleaned l = [] ∧ enumerations l = [].
Proof.
  induction l as [|e l IH]; [done|].
  intros [He [H1 H2]%IH]%Forall_cons.
  split; destruct e; try done; simpl; assumption.
Qed.

Lemma submitted_to_drain_phase its : submitted_to (drain_phase its) = its.*1.
Proof.
  unfold drain_phase, submitted_to. induction its as [|it its IH]; [done|].
  simpl. f_equal. exact IH.
Qed.

Lemma woken_by_drain_phase its : woken_by (drain_phase its) = its.*2.
Proof.
  unfold drain_phase, woken_by. induction its as [|it its IH]; [done|].
  simpl. f_equal. exact IH.
Qed.

Lemma cleaned_releases (jobs : list resumable) :
  cleaned (ev_cleanup_and_release <$> jobs) = jobs.
Proof.
  unfold cleaned. induction jobs as [|j jobs IH]; [done|].
  simpl. f_equal. exact IH.
Qed.

Lemma enumerations_releases (jobs : list resumable) :
  enumerations (ev_cleanup_and_release <$> jobs) = [].
Proof. by induction jobs. Qed.

Lemma cleaned_cleanup_phase c : cleaned (cleanup_phase c) ≡ₚ queued c.
Proof.
  unfold cleanup_phase, queued, central_cleanup_events.
  rewrite cleaned_app. apply Permutation_app.
  - induction (workers_ c) as [|u ws IH]; [done|].
    rewrite !fmap_cons. simpl. rewrite cleaned_app.
    apply Permutation_app; [|exact IH].
    unfold cleanup_events.
    change (cleaned (?e :: ?l)) with (cleaned l).
    rewrite cleaned_releases. apply foreach_resumable_visits.
  - change (cleaned (?e :: ?l)) with (cleaned l).
    rewrite cleaned_releases. apply foreach_central_resumable_visits.
Qed.

Lemma enumerations_cleanup_phase c :
  enumerations (cleanup_phase c) =
    (ev_foreach_resumable <$> pool c) ++ [ev_foreach_central_resumable].
Proof.
  unfold cleanup_phase, central_cleanup_events, pool.
  rewrite enumerations_app. f_equal.
  - induction (workers_ c) as [|u ws IH]; [done|].
    rewrite !fmap_cons. simpl. rewrite enumerations_app.
    unfold cleanup_events.
    change (enumerations (ev_foreach_resumable ?a :: ?l))
      with (ev_foreach_resumable a :: enumerations l).
    rewrite enumerations_releases. simpl. f_equal. exact IH.
  - change (enumerations (ev_foreach_central_resumable :: ?l))
      with (ev_foreach_central_resumable :: enumerations l).
    by rewrite enumerations_releases.
Qed.

Lemma release_times_ok k : ∀ h,
  k < rc_ h → release_times k h = Some (set_rc (rc_ h - k) h).
Proof.
  induction k as [|k IH]; intros h Hk; simpl.
  - rewrite Nat.sub_0_r. by destruct h.
  - unfold sh_release. destruct (rc_ h) as [|[|n]] eqn:Hrc; [lia..|].
    simpl. rewrite IH by (simpl; lia). simpl. done.
Qed.

Lemma reported_elem e l w : e ∈ l → w ∈ reports e → w ∈ reported l.
Proof.
  intros He Hw. unfold reported. apply elem_of_union_list.
  exists (reports e). split; [|done]. apply list_elem_of_fmap. eauto.
Qed.

Lemma pool_of_identity c c' :
  pool_identity c' = pool_identity c →
  pool c' = pool c ∧ length (workers_ c') = length (workers_ c).
Proof.
  intros H. split.
  - apply (f_equal (fmap (λ x : addr * nat * addr * nat, x.1.1.1))) in H.
    unfold pool_identity in H. rewrite <- !list_fmap_compose in H. exact H.
  - apply (f_equal length) in H. unfold pool_identity in H.
    by rewrite !length_fmap in H.
Qed.

Lemma steps_pool {A} P (c : M A) m :
  steps P c → pool_identity (self (c m).2) = pool_identity (self m).
Proof. intros Hc. apply Hc. Qed.

(** ** The queues when the drain loop has returned *)

Lemma cleanup_phase_drained its m :
  cleanup_phase (self (drained its m)) = cleanup_phase (works its.*2 (self m)).
Proof.
  unfold cleanup_phase, drained. simpl. f_equal.
  rewrite <- list_fmap_compose. done.
Qed.

Lemma queued_drained its m :
  queued (self (drained its m)) = queued (works its.*2 (self m)).
Proof.
  unfold queued, drained. simpl. f_equal.
  rewrite <- list_fmap_compose. done.
Qed.

Lemma pool_drained its m : pool (self (drained its m)) = pool (self m).
Proof.
  unfold pool, drained. simpl. rewrite <- list_fmap_compose.
  apply (pool_works its.*2).
Qed.

(** * The claims *)

(** C1: called on a started pool of N workers under a live schedule, [stop]
    returns, and its drain loop runs exactly N iterations: it starts from the
    set of all N workers, each iteration submits the sentinel to the first
    worker of the current set and removes exactly the worker it is told
    about, an element of the current set; so the control thread is told
    about each worker of the pool exactly once, and the loop returns with
    the empty set. *)
Theorem stop_reports_every_worker_once (fuel : nat) (m : machine) :
  sched_live →
  started (self m) →
  num_workers_ (self m) ≤ fuel →
  ∃ its m' l,
    stop fuel m = (Ok tt, m') ∧
    trace m' = trace m ++ l ∧
    (drain fuel (list_to_set (pool (self m))) (entering_drain m)).1 = Ok ∅ ∧
    drain_schedule (list_to_set (pool (self m))) its ∧
    length its = num_workers_ (self m) ∧
    submitted_to l = its.*1 ∧
    woken_by l = its.*2 ∧
    its.*2 ≡ₚ pool (self m).
Proof.
  intros Hlive Hst Hfuel.
  destruct (stop_ok fuel m Hlive Hst Hfuel)
    as (its & Hits & _ & Hdrain & Hstop).
  pose proof Hst as [Hsize Hnd _].
  eexists its, _, _. split; [exact Hstop|]. simpl.
  split; [done|]. split; [by rewrite Hdrain|]. split; [done|].
  assert (Forall (λ e, phase_of e ≠ in_drain) (ref_phase (self m))) as Href.
  { eapply Forall_impl; [apply ref_phase_in_ref|]. by intros e ->. }
  assert (Forall (λ e, phase_of e ≠ in_drain)
            (ev_stop_actors ::
             join_phase (self m) ++ cleanup_phase (works its.*2 (self m))))
    as Hrest.
  { apply Forall_cons. split; [done|]. apply Forall_app. split.
    - eapply Forall_impl; [apply join_phase_in_join|]. by intros e ->.
    - eapply Forall_impl; [apply cleanup_phase_in_cleanup|]. by intros e ->. }
  destruct (outside_drain _ Href) as [Hs1 Hw1].
  destruct (outside_drain _ Hrest) as [Hs2 Hw2].
  split_and!.
  - rewrite (drain_schedule_length _ _ Hits), size_list_to_set by done.
    unfold pool. by rewrite length_fmap.
  - rewrite !submitted_to_app, Hs1, submitted_to_drain_phase.
    simpl in Hs2. simpl. rewrite Hs2. by rewrite app_nil_r.
  - rewrite !woken_by_app, Hw1, woken_by_drain_phase.
    simpl in Hw2. simpl. rewrite Hw2. by rewrite app_nil_r.
  - rewrite (drain_schedule_reported _ _ Hits). by apply elements_list_to_set.
Qed.

(** C2: in every run of [stop], complete or not, each submission of the
    sentinel goes to a worker of the pool that has not been reported before:
    neither has the sentinel stored that worker's identity, nor has the
    control thread been woken with it. *)
Theorem stop_never_resubmits_to_reported (fuel : nat) (m : machine) :
  ∃ l,
    trace (stop fuel m).2 = trace m ++ l ∧
    submissions_alive (list_to_set (pool (self m))) l ∧
    ∀ l1 target l2,
      l = l1 ++ ev_external_enqueue target :: l2 →
      target ∈ pool (self m) ∧
      (ev_store_last_worker (Some target) ∉ l1) ∧
      (ev_cv_wait target ∉ l1).
Proof.
  destruct (stop_submissions fuel m) as (l & Ht & Hl).
  exists l. split; [done|]. split; [done|].
  intros l1 target l2 ->.
  apply submissions_alive_split in Hl as [Hin Hnot].
  split_and!.
  - by apply elem_of_list_to_set in Hin.
  - intros He. apply Hnot. eapply reported_elem; [done|]. env_set_solver.
  - intros He. apply Hnot. eapply reported_elem; [done|]. env_set_solver.
Qed.

(** C3: whichever worker [w] invokes the sentinel's [resume], once it holds
    the mutex it stores [w] as the last reporting worker, notifies the
    condition variable, releases the mutex and returns
    [shutdown_execution_unit]; no invocation ever returns [done] or
    [awaiting_more_work]. *)
Theorem resume_reports_the_executing_worker
    (w : addr) (max_steps : nat) (m : machine) :
  mtx (sh m) = false →
  ∃ m',
    shutdown_helper_resume (Some w) max_steps m =
      (Ok shutdown_execution_unit, m') ∧
    last_worker (sh m') = Some w ∧
    cv (sh m') = S (cv (sh m)) ∧
    mtx (sh m') = false ∧
    rc_ (sh m') = rc_ (sh m) ∧
    self m' = self m ∧
    trace m' = trace m ++ [ev_mtx_lock; ev_store_last_worker (Some w);
                           ev_cv_notify_all; ev_mtx_unlock] ∧
    ∀ ptr k m0 res m1,
      shutdown_helper_resume ptr k m0 = (Ok res, m1) →
      res = shutdown_execution_unit ∧ res ≠ done ∧
      res ≠ awaiting_more_work ∧ last_worker (sh m1) = ptr.
Proof.
  intros Hfree. eexists. split; [by apply shutdown_helper_resume_ok|].
  simpl. split_and!; try done.
  intros ptr k m0 res m1 [-> ->]%shutdown_helper_resume_result. done.
Qed.

(** C4: called on a started pool under a live schedule, [stop] runs its
    phases in this order: the references and the drain loop, which ends with
    the alive set empty; then [stop_actors]; then the join of every worker's
    thread, in pool order; and only then the cleanup pass, over the queues
    as the run loops have left them. *)
Theorem stop_phases_in_order (fuel : nat) (m : machine) :
  sched_live →
  started (self m) →
  num_workers_ (self m) ≤ fuel →
  ∃ its m',
    stop fuel m = (Ok tt, m') ∧
    trace m' = trace m ++ (ref_phase (self m) ++ drain_phase its) ++
               [ev_stop_actors] ++ join_phase (self m) ++
               cleanup_phase (works its.*2 (self m)) ∧
    drain_schedule (list_to_set (pool (self m))) its ∧
    Forall (λ e, phase_of e = in_ref ∨ phase_of e = in_drain)
      (ref_phase (self m) ++ drain_phase its) ∧
    join_phase (self m) = ev_join <$> pool (self m) ∧
    Forall (λ e, phase_of e = in_join) (join_phase (self m)) ∧
    Forall (λ e, phase_of e = in_cleanup)
      (cleanup_phase (works its.*2 (self m))) ∧
    Forall (λ u, this_thread_ (pointee u) = joined) (workers_ (self m')).
Proof.
  intros Hlive Hst Hfuel.
  destruct (stop_ok fuel m Hlive Hst Hfuel) as (its & Hits & _ & _ & Hstop).
  eexists its, _. split; [exact Hstop|]. simpl.
  split_and!.
  - by rewrite <- !app_assoc.
  - done.
  - apply Forall_app. split.
    + eapply Forall_impl; [apply ref_phase_in_ref|]. by left.
    + eapply Forall_impl; [apply drain_phase_in_drain|]. by right.
  - done.
  - apply join_phase_in_join.
  - apply cleanup_phase_in_cleanup.
  - apply Forall_fmap. by apply Forall_true.
Qed.

(** C5: called on a started pool under a live schedule, [stop] ends, after
    the joins, with the cleanup pass: it enumerates the queue of each worker
    of the pool once, in pool order, and then the central queue once.  The
    jobs handed to [cleanup_and_release] are, counted with multiplicity, the
    jobs that are queued when the drain loop returns, that is, those the run
    loops have not resumed before they got to the sentinel; nothing is
    cleaned up before the pass, and the pass leaves in the queues what the
    enumerations leave.  So when no job sits in two queues, each job still
    queued is handed to the callback exactly once, and no other job is. *)
Theorem stop_cleans_every_queued_resumable_once (fuel : nat) (m : machine) :
  sched_live →
  started (self m) →
  num_workers_ (self m) ≤ fuel →
  ∃ its m' before,
    drain fuel (list_to_set (pool (self m))) (entering_drain m) =
      (Ok ∅, drained its m) ∧
    data_ (self (drained its m)) = data_ (works its.*2 (self m)) ∧
    w_data_ ∘ pointee <$> workers_ (self (drained its m)) =
      w_data_ ∘ pointee <$> workers_ (works its.*2 (self m)) ∧
    stop fuel m = (Ok tt, m') ∧
    trace m' = trace m ++ (before ++ join_phase (self m)) ++
               cleanup_phase (self (drained its m)) ∧
    cleaned (before ++ join_phase (self m)) = [] ∧
    enumerations (before ++ join_phase (self m)) = [] ∧
    enumerations (cleanup_phase (self (drained its m))) =
      (ev_foreach_resumable <$> pool (self m)) ++
      [ev_foreach_central_resumable] ∧
    cleaned (cleanup_phase (self (drained its m))) ≡ₚ
      queued (self (drained its m)) ∧
    (NoDup (queued (self (drained its m))) →
     ∀ job,
       (job ∈ queued (self (drained its m)) →
        ∃ l1 l2,
          cleaned (cleanup_phase (self (drained its m))) = l1 ++ job :: l2 ∧
          (job ∉ l1) ∧ (job ∉ l2)) ∧
       (job ∉ queued (self (drained its m)) →
        job ∉ cleaned (cleanup_phase (self (drained its m))))) ∧
    data_ (self m') =
      (foreach_central_resumable (data_ (self (drained its m)))).2 ∧
    w_data_ ∘ pointee <$> workers_ (self m') =
      (λ d, (foreach_resumable d).2) <$>
        (w_data_ ∘ pointee <$> workers_ (self (drained its m))).
Proof.
  intros Hlive Hst Hfuel.
  destruct (stop_ok fuel m Hlive Hst Hfuel)
    as (its & Hits & _ & Hdrain & Hstop).
  eexists its, _, (ref_phase (self m) ++ drain_phase its ++ [ev_stop_actors]).
  split; [exact Hdrain|].
  split; [done|].
  split; [unfold drained; simpl; by rewrite <- list_fmap_compose|].
  split; [exact Hstop|].
  assert (Forall (λ e, phase_of e ≠ in_cleanup)
            ((ref_phase (self m) ++ drain_phase its ++ [ev_stop_actors]) ++
             join_phase (self m))) as Hbefore.
  { rewrite !Forall_app. split_and!.
    - eapply Forall_impl; [apply ref_phase_in_ref|]. by intros e ->.
    - eapply Forall_impl; [apply drain_phase_in_drain|]. by intros e ->.
    - by apply Forall_singleton.
    - eapply Forall_impl; [apply join_phase_in_join|]. by intros e ->. }
  destruct (outside_cleanup _ Hbefore) as [Hc He].
  pose proof (cleaned_cleanup_phase (self (drained its m))) as Hperm.
  split_and!; try done.
  - rewrite cleanup_phase_drained. cbn [trace]. by rewrite <- !app_assoc.
  - rewrite enumerations_cleanup_phase. by rewrite pool_drained.
  - intros Hnd job. split.
    + intros Hjob. rewrite <- Hperm in Hnd, Hjob.
      apply list_elem_of_split in Hjob as (l1 & l2 & Hsplit).
      exists l1, l2. split; [done|]. rewrite Hsplit in Hnd.
      apply NoDup_app in Hnd as (_ & Hl1 & Hl2).
      apply NoDup_cons in Hl2 as [Hl2 _].
      split; [|done]. intros Hin. apply (Hl1 _ Hin). by left.
    + intros Hjob Hin. apply Hjob. by rewrite <- Hperm.
  - unfold drained. cbn [self workers_ set_workers set_data].
    rewrite <- !list_fmap_compose. done.
Qed.

(** C6: on a freshly constructed coordinator configured for N workers,
    [start] returns with a pool of exactly N workers; the worker at position
    i was constructed with index i, the coordinator as parent and the
    configured number of steps per resume.  All N constructions come first,
    then the threads are started, in pool order, and only then the remaining
    startup is delegated to the base class. *)
Theorem start_constructs_then_launches
    (this_addr : addr) (num max_steps : nat)
    (h : shutdown_helper) (t : list event) :
  ∃ addrs m',
    start {| self := coordinator_ctor this_addr num max_steps;
             sh := h; trace := t |} = (Ok tt, m') ∧
    length addrs = num ∧
    length (workers_ (self m')) = num ∧
    pool (self m') = addrs ∧
    (∀ i u, workers_ (self m') !! i = Some u →
       id_ (pointee u) = i ∧ parent_ (pointee u) = this_addr ∧
       w_max_throughput_ (pointee u) = max_steps ∧
       this_thread_ (pointee u) = running) ∧
    trace m' = t ++ imap (λ i a, ev_new_worker a i this_addr max_steps) addrs ++
               (ev_worker_start <$> addrs) ++ [ev_super_start].
Proof.
  eexists (new_addrs num []), _.
  split; [by apply start_ok|]. simpl.
  split_and!.
  - apply length_new_addrs.
  - by rewrite length_imap, length_new_addrs.
  - apply launched_pool.
  - intros i u Hu. rewrite launched_lookup in Hu.
    destruct (new_addrs num [] !! i) as [a|]; [|done].
    by injection Hu as <-.
  - done.
Qed.

(** C7: after [start] on a freshly constructed coordinator, for i below the
    number of workers [worker_by_id i] returns the address held at position
    i of the pool, which is not null (an address never is) and is the
    address of the worker constructed with index i, and changes nothing; for
    i at or above the number of workers, and for every i before [start], the
    access is undefined behaviour. *)
Theorem worker_by_id_after_start
    (this_addr : addr) (num max_steps : nat)
    (h : shutdown_helper) (t : list event) (i : nat) :
  new_addr_fresh →
  let m := {| self := coordinator_ctor this_addr num max_steps;
              sh := h; trace := t |} in
  let m' := (start m).2 in
  (i < num →
   ∃ a u,
     worker_by_id i m' = (Ok a, m') ∧
     Some a ≠ nullptr ∧
     workers_ (self m') !! i = Some u ∧ get u = a ∧
     find_worker a (workers_ (self m')) = Some u ∧
     id_ (pointee u) = i) ∧
  (num ≤ i → worker_by_id i m' = (Fault undefined_behaviour, m')) ∧
  worker_by_id i m = (Fault undefined_behaviour, m).
Proof.
  intros Hfresh m m'.
  assert (workers_ (self m') = imap (launched (self m)) (new_addrs num [])) as Hws.
  { unfold m'. by rewrite start_ok. }
  split_and!.
  - intros Hi.
    destruct (lookup_lt_is_Some_2 (new_addrs num []) i) as [a Ha].
    { by rewrite length_new_addrs. }
    assert (workers_ (self m') !! i = Some (launched (self m) i a)) as Hu.
    { by rewrite Hws, launched_lookup, Ha. }
    exists a, (launched (self m) i a). split_and!; try done.
    + unfold worker_by_id. erewrite bind_Ok by by apply workers_at_ok. done.
    + apply (find_worker_lookup _ i (launched (self m) i a)); [|done].
      rewrite Hws, launched_pool.
      by apply (new_addrs_NoDup _ []), NoDup_nil.
  - intros Hi. unfold worker_by_id.
    erewrite bind_Fault; [done|]. apply workers_at_undefined.
    rewrite Hws. apply lookup_ge_None.
    by rewrite length_imap, length_new_addrs.
  - unfold worker_by_id. erewrite bind_Fault; [done|].
    by apply workers_at_undefined.
Qed.

(** C8: none of [enqueue], [worker_by_id], [data] and [stop] changes the
    pool, whatever their outcome: afterwards it has the same length and
    holds, position by position, the same addresses of workers with the same
    index, parent and number of steps per resume. *)
Theorem pool_is_never_changed_again
    (m : machine) (ptr : resumable) (x fuel : nat) :
  (pool_identity (self (enqueue ptr m).2) = pool_identity (self m) ∧
   pool (self (enqueue ptr m).2) = pool (self m) ∧
   length (workers_ (self (enqueue ptr m).2)) = length (workers_ (self m))) ∧
  self (worker_by_id x m).2 = self m ∧
  self (data m).2 = self m ∧
  (pool_identity (self (stop fuel m).2) = pool_identity (self m) ∧
   pool (self (stop fuel m).2) = pool (self m) ∧
   length (workers_ (self (stop fuel m).2)) = length (workers_ (self m))).
Proof.
  assert (pool_identity (self (enqueue ptr m).2) = pool_identity (self m))
    as Henqueue.
  { by apply (steps_pool (λ _, True)), steps_policy_central_enqueue. }
  assert (pool_identity (self (stop fuel m).2) = pool_identity (self m))
    as Hstop.
  { apply (steps_pool (λ _, True)), steps_stop. }
  split_and!; try done; try by apply pool_of_identity.
  unfold worker_by_id, workers_at. unfold_M.
  by destruct (workers_ (self m) !! x).
Qed.

(** C9: [enqueue ptr] is the policy's [central_enqueue] applied to this
    coordinator and [ptr], and nothing else: it makes that one call and
    returns; afterwards the coordinator data is the first component of what
    [central_enqueue] returns, the policy data of the worker at each
    position is the entry of the second component at that position, and the
    sentinel, the configuration, the pool and the threads are as they
    were. *)
Theorem enqueue_is_central_enqueue (ptr : resumable) (m : machine) :
  let r := central_enqueue (data_ (self m))
             (w_data_ ∘ pointee <$> workers_ (self m)) ptr in
  enqueue ptr = policy_central_enqueue ptr ∧
  enqueue ptr m =
    (Ok tt,
     {| self :=
          set_workers
            (put_worker_data
               (central_enqueue (data_ (self m))
                  (w_data_ ∘ pointee <$> workers_ (self m)) ptr).2
               (workers_ (self m)))
            (set_data
               (central_enqueue (data_ (self m))
                  (w_data_ ∘ pointee <$> workers_ (self m)) ptr).1
               (self m));
        sh := sh m;
        trace := trace m ++ [ev_central_enqueue ptr] |}) ∧
  (enqueue ptr m).1 = Ok tt ∧
  trace (enqueue ptr m).2 = trace m ++ [ev_central_enqueue ptr] ∧
  sh (enqueue ptr m).2 = sh m ∧
  self (enqueue ptr m).2 = with_policy_data r (self m) ∧
  data_ (self (enqueue ptr m).2) = r.1 ∧
  (∀ i u, workers_ (self m) !! i = Some u →
     ∃ u', workers_ (self (enqueue ptr m).2) !! i = Some u' ∧
           get u' = get u ∧
           w_data_ (pointee u') = default (w_data_ (pointee u)) (r.2 !! i)) ∧
  (length r.2 = length (workers_ (self m)) →
   w_data_ ∘ pointee <$> workers_ (self (enqueue ptr m).2) = r.2) ∧
  this (self (enqueue ptr m).2) = this (self m) ∧
  num_workers_ (self (enqueue ptr m).2) = num_workers_ (self m) ∧
  max_throughput_ (self (enqueue ptr m).2) = max_throughput_ (self m) ∧
  pool_identity (self (enqueue ptr m).2) = pool_identity (self m) ∧
  this_thread_ ∘ pointee <$> workers_ (self (enqueue ptr m).2) =
    this_thread_ ∘ pointee <$> workers_ (self m).
Proof.
  intros r.
  assert (self (enqueue ptr m).2 = with_policy_data r (self m)) as Hself.
  { unfold enqueue, policy_central_enqueue. unfold_M. simpl.
    apply put_policy_data_eq. }
  split_and!; try done.
  - intros i u Hu. rewrite Hself. unfold with_policy_data. simpl.
    rewrite list_lookup_imap, Hu. simpl. eexists. done.
  - intros Hlen. rewrite Hself. unfold with_policy_data. simpl.
    apply list_eq. intros i.
    rewrite list_lookup_fmap, list_lookup_imap.
    destruct (workers_ (self m) !! i) as [u|] eqn:Hu; simpl.
    + destruct (lookup_lt_is_Some_2 r.2 i) as [d Hd].
      { rewrite Hlen. by eapply lookup_lt_Some. }
      by rewrite Hd.
    + symmetry. apply lookup_ge_None. rewrite Hlen.
      by apply lookup_ge_None.
  - by apply (steps_pool (λ _, True)), steps_policy_central_enqueue.
  - apply policy_central_enqueue_threads.
Qed.

(** C10: called on a started pool under a live schedule, [stop] takes
    exactly one reference to the sentinel per worker, all of them before the
    first submission: the drain loop is entered with the count raised by the
    number of workers, and the count stays there until [stop] returns.  So
    when a fresh sentinel holds at least one reference, any number of
    releases up to the number of workers leaves the sentinel alive. *)
Theorem stop_takes_one_reference_per_worker (fuel : nat) (m : machine) :
  sched_live →
  started (self m) →
  num_workers_ (self m) ≤ fuel →
  1 ≤ rc_initial →
  ∃ its m' rest,
    stop fuel m = (Ok tt, m') ∧
    trace m' = trace m ++ replicate (num_workers_ (self m)) ev_ref ++
               drain_phase its ++ rest ∧
    (ev_ref ∉ drain_phase its ++ rest) ∧
    submitted_to (replicate (num_workers_ (self m)) ev_ref) = [] ∧
    insert_workers (seq 0 (num_workers_ (self m))) ∅
      {| self := self m; sh := shutdown_helper_ctor; trace := trace m |} =
      (Ok (list_to_set (pool (self m))), entering_drain m) ∧
    rc_ shutdown_helper_ctor = rc_initial ∧
    rc_ (sh (entering_drain m)) = num_workers_ (self m) + rc_initial ∧
    rc_ (sh m') = num_workers_ (self m) + rc_initial ∧
    ∀ k, k ≤ num_workers_ (self m) →
      ∃ h', release_times k (sh (entering_drain m)) = Some h' ∧ 1 ≤ rc_ h'.
Proof.
  intros Hlive Hst Hfuel Hrc.
  destruct (stop_ok fuel m Hlive Hst Hfuel) as (its & Hits & Hins & _ & Hstop).
  eexists its, _, _. split; [exact Hstop|]. simpl.
  split_and!; try done.
  - intros Hin.
    assert (Forall (λ e, phase_of e ≠ in_ref)
              (drain_phase its ++
               ev_stop_actors ::
               join_phase (self m) ++ cleanup_phase (works its.*2 (self m))))
      as Hno.
    { rewrite Forall_app, Forall_cons, Forall_app. split_and!; try done.
      - eapply Forall_impl; [apply drain_phase_in_drain|]. by intros e ->.
      - eapply Forall_impl; [apply join_phase_in_join|]. by intros e ->.
      - eapply Forall_impl; [apply cleanup_phase_in_cleanup|]. by intros e ->. }
    rewrite Forall_forall in Hno. by apply (Hno _ Hin).
  - apply outside_drain. by apply Forall_replicate.
  - intros k Hk. eexists. split.
    + apply release_times_ok. simpl. lia.
    + simpl. lia.
Qed.

(** * Further properties *)

(** X1: the liveness failure of the spec.  When the schedule hands the
    sentinel to a worker whose run loop is not executing, nobody ever
    reports: on a started pool with at least one worker [stop] makes its
    first submission and then blocks forever in the wait; it reports no
    error, does not reach [stop_actors] and leaves the coordinator as it
    was. *)
Theorem stop_blocks_on_lost_submission (fuel : nat) (m : machine) :
  started (self m) →
  0 < num_workers_ (self m) →
  0 < fuel →
  (∀ target,
     ¬ is_running (workers_ (self m)) (sched (workers_ (self m)) target)) →
  ∃ target m',
    stop fuel m = (Fault blocks_forever, m') ∧
    set_begin (list_to_set (pool (self m))) = Some target ∧
    trace m' = trace m ++ ref_phase (self m) ++
               [ev_external_enqueue target; ev_mtx_lock] ∧
    self m' = self m.
Proof.
  intros Hst Hnum Hfuel Hlost. pose proof Hst as [Hsize _ _].
  destruct fuel as [|fuel]; [lia|].
  destruct (set_begin_is_Some (list_to_set (pool (self m)))) as [target Hbegin].
  { destruct (workers_ (self m)) as [|u ws] eqn:Hws; [simpl in *; lia|].
    unfold pool. rewrite Hws. simpl. env_set_solver. }
  eexists target, _. unfold stop.
  erewrite bind_Ok by done. erewrite bind_Ok by done.
  erewrite bind_Ok by exact (insert_workers_started m Hst).
  erewrite bind_Fault; last first.
  { apply (drain_stuck _ _ _ target); [done| |done|done]. apply Hlost. }
  simpl. split_and!; try done. by rewrite <- app_assoc.
Qed.

(** X2: start, then stop.  On a freshly constructed coordinator, with an
    allocator that hands out fresh addresses and under a live schedule,
    [start] returns in a state in which [stop] may be called, and [stop]
    then returns with every worker of the pool joined. *)
Theorem start_then_stop_returns (fuel : nat) (m : machine) :
  new_addr_fresh →
  sched_live →
  workers_ (self m) = [] →
  num_workers_ (self m) ≤ fuel →
  ∃ m1 m2,
    start m = (Ok tt, m1) ∧
    started (self m1) ∧
    stop fuel m1 = (Ok tt, m2) ∧
    length (workers_ (self m2)) = num_workers_ (self m) ∧
    Forall (λ u, this_thread_ (pointee u) = joined) (workers_ (self m2)).
Proof.
  intros Hfresh Hlive Hempty Hfuel.
  pose proof (start_started m Hfresh Hempty) as Hst.
  pose proof (start_ok m Hempty) as Hstart. cbv zeta in Hstart.
  assert (num_workers_ (self (start m).2) ≤ fuel) as Hfuel'.
  { by rewrite Hstart. }
  destruct (stop_ok fuel (start m).2 Hlive Hst Hfuel')
    as (its & _ & _ & _ & Hstop).
  exists (start m).2. eexists.
  split; [by rewrite Hstart|]. split; [exact Hst|].
  split; [exact Hstop|]. simpl. rewrite Hstart. simpl. split.
  - rewrite length_fmap, length_works. simpl.
    by rewrite length_imap, length_new_addrs.
  - apply Forall_fmap. by apply Forall_true.
Qed.

(** X3: [enqueue] keeps the pool started, so any number of jobs may be
    submitted between [start] and [stop]. *)
Theorem enqueue_keeps_started (ptr : resumable) (m : machine) :
  started (self m) → started (self (enqueue ptr m).2).
Proof.
  intros [Hsize Hnd Hrun].
  pose proof (steps_pool (λ _, True) (policy_central_enqueue ptr) m
                (steps_policy_central_enqueue _ ptr I)) as Hid.
  apply pool_of_identity in Hid as [Hpool Hlen].
  pose proof (policy_central_enqueue_threads ptr m) as Hthreads.
  unfold enqueue. split.
  - by rewrite Hlen, Hsize.
  - by rewrite Hpool.
  - assert (Forall (λ t, t = running)
              (this_thread_ ∘ pointee <$> workers_ (self m))) as Hrun'.
    { by apply Forall_fmap. }
    rewrite <- Hthreads in Hrun'. by apply Forall_fmap in Hrun'.
Qed.

(** ** Pools on which [stop] cannot return *)

Lemma size_list_to_set_le (l : list addr) :
  size (list_to_set l : gset addr) ≤ length l.
Proof.
  induction l as [|x l IH].
  - rewrite list_to_set_nil, size_empty. simpl. lia.
  - rewrite list_to_set_cons, size_union_alt, size_singleton.
    assert (size (list_to_set l ∖ {[x]} : gset addr)
            ≤ size (list_to_set l : gset addr)).
    { apply subseteq_size. env_set_solver. }
    simpl. lia.
Qed.

Lemma is_running_pool ws a : is_running ws a → a ∈ get <$> ws.
Proof.
  intros (u & [Hin <-]%find_worker_Some & _).
  apply list_elem_of_fmap. eauto.
Qed.

Lemma drain_blocks fuel : ∀ alive m (R : gset addr) d,
  mtx (sh m) = false →
  last_worker (sh m) = nullptr →
  (∀ a, a ∈ R ↔ is_running (workers_ (self m)) a) →
  d ∈ alive →
  d ∉ R →
  size R < fuel →
  (drain fuel alive m).1 = Fault blocks_forever.
Proof.
  induction fuel as [|fuel IH]; intros alive m R d Hfree Hlast HR Hd HdR Hsize;
    [lia|].
  assert (alive ≠ ∅) as Hne by env_set_solver.
  destruct (set_begin_is_Some alive Hne) as [target Hbegin].
  set (v := sched (workers_ (self m)) target).
  destruct (decide (is_running (workers_ (self m)) v)) as [Hrun|Hidle].
  - rewrite (drain_step fuel alive m target v) by done.
    assert (v ∈ R) as HvR by by apply HR.
    apply (IH (alive ∖ {[v]}) _ (R ∖ {[v]}) d); try done.
    + intros a.
      change (a ∈ R ∖ {[v]} ↔
              is_running
                (set_thread_of v finished (workers_ (worked v (self m)))) a).
      rewrite is_running_finished, is_running_worked, <- HR. env_set_solver.
    + env_set_solver.
    + env_set_solver.
    + rewrite size_difference by env_set_solver. rewrite size_singleton.
      assert (size R ≠ 0); [|lia].
      intros Hz%size_empty_inv. env_set_solver.
  - by rewrite (drain_stuck fuel alive m target).
Qed.

Lemma insert_workers_sized m :
  length (workers_ (self m)) = num_workers_ (self m) →
  insert_workers (seq 0 (num_workers_ (self m))) ∅
    {| self := self m; sh := shutdown_helper_ctor; trace := trace m |} =
    (Ok (list_to_set (pool (self m))), entering_drain m).
Proof.
  intros Hsize.
  rewrite insert_workers_ok by (simpl; lia). simpl.
  rewrite drop_0, take_ge, union_empty_r_L; [done|].
  unfold pool. rewrite length_fmap. lia.
Qed.

Lemma stop_drain_fault fuel m f m2 :
  length (workers_ (self m)) = num_workers_ (self m) →
  drain fuel (list_to_set (pool (self m))) (entering_drain m) = (Fault f, m2) →
  stop fuel m = (Fault f, m2).
Proof.
  intros Hsize Hdrain. unfold stop.
  erewrite bind_Ok by done. erewrite bind_Ok by done.
  erewrite bind_Ok by exact (insert_workers_sized m Hsize).
  by erewrite bind_Fault.
Qed.


(** X4: [stop] returns only if the run loop of every worker of the pool is
    executing when it is called.  If the pool has the configured size and
    one of its workers is not running (it was never started, has returned
    or was joined), then [stop] blocks forever, whatever the schedule: it
    takes its references and makes drain-loop calls only, never reaches
    [stop_actors] and leaves the pool in place. *)
Theorem stop_blocks_unless_all_running (fuel : nat) (m : machine) (d : addr) :
  length (workers_ (self m)) = num_workers_ (self m) →
  d ∈ pool (self m) →
  ¬ is_running (workers_ (self m)) d →
  num_workers_ (self m) ≤ fuel →
  ∃ m' l,
    stop fuel m = (Fault blocks_forever, m') ∧
    trace m' = trace m ++ ref_phase (self m) ++ l ∧
    Forall (λ e, phase_of e = in_drain) l ∧
    pool_identity (self m') = pool_identity (self m).
Proof.
  intros Hsize Hd Hidle Hfuel.
  set (R := list_to_set (filter (λ a, is_running (workers_ (self m)) a)
                                (pool (self m))) : gset addr).
  assert (∀ a, a ∈ R ↔ is_running (workers_ (self m)) a) as HR.
  { intros a. unfold R. rewrite elem_of_list_to_set, list_elem_of_filter.
    split; [by intros [? _]|]. intros Hrun. split; [done|].
    by apply is_running_pool. }
  assert (size R < fuel) as HsizeR.
  { assert (R ⊆ list_to_set (pool (self m)) ∖ {[d]}) as Hsub.
    { intros a Ha. apply elem_of_difference. split.
      - apply elem_of_list_to_set, is_running_pool. by apply HR.
      - intros ->%elem_of_singleton. by apply Hidle, HR. }
    apply subseteq_size in Hsub.
    rewrite size_difference, size_singleton in Hsub; last first.
    { apply singleton_subseteq_l. by apply elem_of_list_to_set. }
    pose proof (size_list_to_set_le (pool (self m))) as Hle.
    unfold pool in Hle at 2. rewrite length_fmap in Hle.
    assert (size (list_to_set (pool (self m)) : gset addr) ≠ 0); [|lia].
    intros Hz%size_empty_inv.
    assert (d ∈ (list_to_set (pool (self m)) : gset addr))
      by by apply elem_of_list_to_set.
    env_set_solver. }
  pose proof (drain_blocks fuel (list_to_set (pool (self m))) (entering_drain m)
                R d eq_refl eq_refl HR) as Hblocks.
  destruct (steps_drain (λ e, phase_of e = in_drain) fuel
              (list_to_set (pool (self m))) (λ e H, H) (entering_drain m))
    as [Hid (l & Ht & Hl)].
  destruct (drain fuel _ (entering_drain m)) as [res m2] eqn:Hdrain.
  simpl in *. rewrite Hblocks in Hdrain.
  - exists m2, l. split; [by apply stop_drain_fault|].
    split; [by rewrite Ht, <- app_assoc|]. done.
  - by apply elem_of_list_to_set.
  - intros HdR. by apply Hidle, HR.
  - done.
Qed.


(** ** Pools smaller than the configured size *)

Lemma insert_workers_short n : ∀ k alive m,
  k ≤ length (workers_ (self m)) →
  length (workers_ (self m)) < k + n →
  insert_workers (seq k n) alive m =
    (Fault undefined_behaviour,
     {| self := self m;
        sh := set_rc (length (workers_ (self m)) - k + rc_ (sh m)) (sh m);
        trace := trace m ++
                 replicate (length (workers_ (self m)) - k) ev_ref |}).
Proof.
  induction n as [|n IH]; intros k alive m Hk Hlen; [lia|]. simpl.
  destruct (decide (k = length (workers_ (self m)))) as [->|Hne].
  - unfold worker_by_id.
    erewrite bind_Fault; last first.
    { erewrite bind_Fault; [done|].
      apply workers_at_undefined. by apply lookup_ge_None_2. }
    rewrite Nat.sub_diag. simpl. rewrite app_nil_r.
    by destruct m as [? [] ?].
  - destruct (lookup_lt_is_Some_2 (workers_ (self m)) k) as [u Hu]; [lia|].
    unfold worker_by_id, sh_ref.
    erewrite bind_Ok; last first.
    { erewrite bind_Ok by by apply workers_at_ok. done. }
    erewrite bind_Ok by done.
    rewrite IH by (simpl; lia). simpl.
    replace (length (workers_ (self m)) - k)
      with (S (length (workers_ (self m)) - S k)) by lia.
    simpl. rewrite <- app_assoc. simpl.
    do 2 f_equal. unfold set_rc. simpl. f_equal. lia.
Qed.

Lemma insert_workers_app ids1 : ∀ ids2 alive m,
  insert_workers (ids1 ++ ids2) alive m =
  (insert_workers ids1 alive ≫= insert_workers ids2) m.
Proof.
  induction ids1 as [|i ids1 IH]; intros ids2 alive m; [done|]. simpl.
  unfold worker_by_id, workers_at, sh_ref. unfold_M. simpl.
  destruct (workers_ (self m) !! i) as [u|]; simpl; [|done].
  rewrite IH. by unfold_M.
Qed.

(** X6: [stop] on a pool that holds fewer workers than [num_workers()], as
    it does before [start], has undefined behaviour, and reaches it in its
    first loop, before anything is submitted.  The iterations for the
    workers the pool does hold insert them and take one reference each,
    without touching the coordinator; the next iteration reads
    [workers_[i]] past the end of the vector, which is undefined.  Nothing
    is stated about what the program does from there on. *)
Theorem stop_on_short_pool (fuel : nat) (m : machine) :
  length (workers_ (self m)) < num_workers_ (self m) →
  let n := length (workers_ (self m)) in
  let m0 := {| self := self m; sh := shutdown_helper_ctor; trace := trace m |} in
  let m1 := {| self := self m;
               sh := set_rc (n + rc_initial) shutdown_helper_ctor;
               trace := trace m ++ replicate n ev_ref |} in
  insert_workers (seq 0 (num_workers_ (self m))) ∅ m0 =
    (insert_workers (seq 0 n) ∅ ≫=
     insert_workers (seq n (num_workers_ (self m) - n))) m0 ∧
  insert_workers (seq 0 n) ∅ m0 = (Ok (list_to_set (pool (self m))), m1) ∧
  seq n (num_workers_ (self m) - n) =
    n :: seq (S n) (num_workers_ (self m) - S n) ∧
  worker_by_id n m1 = (Fault undefined_behaviour, m1) ∧
  submitted_to (replicate n ev_ref) = [] ∧
  (stop fuel m).1 = Fault undefined_behaviour.
Proof.
  intros Hshort n m0 m1. split_and!.
  - rewrite <- insert_workers_app, <- seq_app. do 3 f_equal. lia.
  - rewrite insert_workers_ok by (simpl; lia). simpl.
    rewrite drop_0, take_ge, union_empty_r_L; [done|].
    unfold pool. by rewrite length_fmap.
  - replace (num_workers_ (self m) - n) with (S (num_workers_ (self m) - S n))
      by lia.
    done.
  - unfold worker_by_id. erewrite bind_Fault; [done|].
    apply workers_at_undefined. by apply lookup_ge_None_2.
  - apply outside_drain. by apply Forall_replicate.
  - unfold stop.
    erewrite bind_Ok by done. erewrite bind_Ok by done.
    erewrite bind_Fault; [done|].
    apply insert_workers_short; simpl; lia.
Qed.

(** X7: [stop] on a coordinator configured with no worker returns at once,
    whatever the schedule and without a single iteration of the drain loop:
    no reference is taken and nothing is submitted or joined;
    [stop_actors] runs and the central queue is cleaned up. *)
Theorem stop_without_workers (fuel : nat) (m : machine) :
  workers_ (self m) = [] →
  num_workers_ (self m) = 0 →
  stop fuel m =
    (Ok tt,
     {| self := set_data (foreach_central_resumable (data_ (self m))).2 (self m);
        sh := shutdown_helper_ctor;
        trace := trace m ++ [ev_stop_actors] ++
                 central_cleanup_events (self m) |}).
Proof.
  intros Hws Hnum. unfold stop.
  erewrite bind_Ok by done. erewrite bind_Ok by done.
  simpl. rewrite Hnum. simpl.
  erewrite bind_Ok by done.
  erewrite bind_Ok; last first.
  { destruct fuel; simpl; by rewrite decide_True. }
  unfold stop_actors. erewrite bind_Ok by done.
  unfold for_each_worker.
  erewrite bind_Ok; last first.
  { erewrite bind_Ok by done. simpl. rewrite Hws. done. }
  erewrite bind_Ok; last first.
  { erewrite bind_Ok by done. simpl. rewrite Hws. done. }
  unfold policy_foreach_central_resumable.
  erewrite bind_Ok by done.
  erewrite bind_Ok by done.
  erewrite bind_Ok by apply for_each_emit.
  unfold_M. simpl. unfold central_cleanup_events.
  by rewrite <- !app_assoc.
Qed.


(** ** The order of the phases in every run *)

Lemma steps_then {A B} (P : event → Prop) (Q : list event → Prop)
    (c : M A) (k : A → M B) :
  steps P c →
  Q [] →
  (∀ a m, ∃ l, trace (k a m).2 = trace m ++ l ∧ Q l) →
  ∀ m, ∃ l1 l2,
    trace ((c ≫= k) m).2 = trace m ++ l1 ++ l2 ∧ Forall P l1 ∧ Q l2.
Proof.
  intros Hc Hnil Hk m. destruct (Hc m) as [_ (l1 & Ht & Hl1)]. unfold_M.
  destruct (c m) as [[a|f] m1]; simpl in *.
  - destruct (Hk a m1) as (l2 & Ht2 & Hl2). exists l1, l2.
    by rewrite Ht2, Ht, <- app_assoc.
  - exists l1, []. by rewrite app_nil_r.
Qed.

Lemma steps_quiet {A B} (Q : list event → Prop) (c : M A) (k : A → M B) :
  steps (λ _, False) c →
  Q [] →
  (∀ a m, ∃ l, trace (k a m).2 = trace m ++ l ∧ Q l) →
  ∀ m, ∃ l, trace ((c ≫= k) m).2 = trace m ++ l ∧ Q l.
Proof.
  intros Hc Hnil Hk m.
  destruct (steps_then _ Q c k Hc Hnil Hk m) as (l1 & l2 & Ht & Hl1 & Hl2).
  destruct l1 as [|e l1]; [by exists l2|].
  by apply Forall_cons in Hl1 as [[] _].
Qed.

(** X8: every run of [stop] is in phase order, whatever its outcome and
    whatever the pool and the schedule: the calls it makes are references
    taken, then drain-loop calls, and then either nothing (the run ended in
    the first two phases) or one [stop_actors] followed by joins and then by
    clean-up calls.  Nothing is joined or cleaned up before [stop_actors],
    and nothing is submitted after it. *)
Theorem stop_is_always_in_phase_order (fuel : nat) (m : machine) :
  ∃ lr ld rest,
    trace (stop fuel m).2 = trace m ++ lr ++ ld ++ rest ∧
    Forall (λ e, phase_of e = in_ref) lr ∧
    Forall (λ e, phase_of e = in_drain) ld ∧
    (rest = [] ∨
     ∃ lj lc, rest = ev_stop_actors :: lj ++ lc ∧
              Forall (λ e, phase_of e = in_join) lj ∧
              Forall (λ e, phase_of e = in_cleanup) lc).
Proof.
  unfold stop.
  set (Qc := λ l : list event, Forall (λ e, phase_of e = in_cleanup) l).
  set (Qj := λ l : list event,
         ∃ lj lc, l = lj ++ lc ∧
                  Forall (λ e, phase_of e = in_join) lj ∧ Qc lc).
  set (Qa := λ l : list event,
         l = [] ∨ ∃ lj lc, l = ev_stop_actors :: lj ++ lc ∧
                           Forall (λ e, phase_of e = in_join) lj ∧ Qc lc).
  set (Qd := λ l : list event,
         ∃ ld rest, l = ld ++ rest ∧
                    Forall (λ e, phase_of e = in_drain) ld ∧ Qa rest).
  set (Qr := λ l : list event,
         ∃ lr rest, l = lr ++ rest ∧
                    Forall (λ e, phase_of e = in_ref) lr ∧ Qd rest).
  assert (Qc []) as Hc0 by constructor.
  assert (Qj []) as Hj0 by by exists [], [].
  assert (Qa []) as Ha0 by by left.
  assert (Qd []) as Hd0 by by exists [], [].
  assert (Qr []) as Hr0 by by exists [], [].
  assert (∀ m0, ∃ l,
            trace ((for_each_worker policy_foreach_resumable ;;
                    policy_foreach_central_resumable) m0).2 = trace m0 ++ l ∧
            Qc l) as Hcleanup.
  { intros m0.
    assert (steps (λ e, phase_of e = in_cleanup)
              (for_each_worker policy_foreach_resumable ;;
               policy_foreach_central_resumable)) as Hsteps.
    { apply steps_bind; [|intros _].
      - apply steps_for_each_worker. intros x.
        by apply steps_policy_foreach_resumable.
      - by apply steps_policy_foreach_central_resumable. }
    destruct (Hsteps m0) as [_ Hl]. exact Hl. }
  assert (∀ m0, ∃ l,
            trace ((for_each_worker worker_join ;;
                    for_each_worker policy_foreach_resumable ;;
                    policy_foreach_central_resumable) m0).2 = trace m0 ++ l ∧
            Qj l) as Hjoin.
  { intros m0.
    destruct (steps_then (λ e, phase_of e = in_join) Qc
                (for_each_worker worker_join)
                (λ _, for_each_worker policy_foreach_resumable ;;
                      policy_foreach_central_resumable)) with (m := m0)
      as (lj & lc & Ht & Hlj & Hlc); [|done|by intros _|].
    { apply steps_for_each_worker. intros x. by apply steps_worker_join. }
    exists (lj ++ lc). split; [done|]. by exists lj, lc. }
  assert (∀ m0, ∃ l,
            trace ((stop_actors ;;
                    for_each_worker worker_join ;;
                    for_each_worker policy_foreach_resumable ;;
                    policy_foreach_central_resumable) m0).2 = trace m0 ++ l ∧
            Qa l) as Hactors.
  { intros m0. erewrite bind_Ok by done.
    destruct (Hjoin {| self := self m0; sh := sh m0;
                       trace := trace m0 ++ [ev_stop_actors] |})
      as (l & Ht & lj & lc & -> & Hlj & Hlc).
    exists (ev_stop_actors :: lj ++ lc). simpl in Ht.
    rewrite Ht, <- app_assoc. split; [done|]. right. by exists lj, lc. }
  assert (∀ alive m0, ∃ l,
            trace ((drain fuel alive ;;
                    stop_actors ;;
                    for_each_worker worker_join ;;
                    for_each_worker policy_foreach_resumable ;;
                    policy_foreach_central_resumable) m0).2 = trace m0 ++ l ∧
            Qd l) as Hdrain.
  { intros alive m0.
    destruct (steps_then (λ e, phase_of e = in_drain) Qa
                (drain fuel alive)
                (λ _, stop_actors ;;
                      for_each_worker worker_join ;;
                      for_each_worker policy_foreach_resumable ;;
                      policy_foreach_central_resumable)) with (m := m0)
      as (ld & rest & Ht & Hld & Hrest); [|done|by intros _|].
    { by apply steps_drain. }
    exists (ld ++ rest). split; [done|]. by exists ld, rest. }
  destruct (steps_quiet Qr (put_sh shutdown_helper_ctor)
              (λ _, num ← num_workers;
                    alive_workers ← insert_workers (seq 0 num) ∅;
                    drain fuel alive_workers ;; stop_actors ;;
                    for_each_worker worker_join ;;
                    for_each_worker policy_foreach_resumable ;;
                    policy_foreach_central_resumable)) with (m := m)
    as (l & Ht & lr & rest' & -> & Hlr & ld & rest & -> & Hld & Hrest);
    [apply steps_put_sh|done| |].
  { intros _. apply steps_quiet; [unfold num_workers; steps_go|done|].
    intros num m0.
    destruct (steps_then (λ e, phase_of e = in_ref) Qd
                (insert_workers (seq 0 num) ∅)
                (λ alive_workers,
                   drain fuel alive_workers ;; stop_actors ;;
                   for_each_worker worker_join ;;
                   for_each_worker policy_foreach_resumable ;;
                   policy_foreach_central_resumable)) with (m := m0)
      as (lr & rest & Ht & Hlr & Hrest); [|done|apply Hdrain|].
    { by apply steps_insert_workers. }
    exists (lr ++ rest). split; [done|]. by exists lr, rest. }
  exists lr, ld, rest. done.
Qed.


(** ** The shape of every run of the drain loop *)

Lemma drain_shape fuel : ∀ alive m,
  mtx (sh m) = false →
  last_worker (sh m) = nullptr →
  ∃ its tail,
    trace (drain fuel alive m).2 = trace m ++ drain_phase its ++ tail ∧
    drain_run alive its tail.
Proof.
  induction fuel as [|fuel IH]; intros alive m Hfree Hlast.
  { exists [], []. rewrite drain_unfold.
    case_decide; rewrite app_nil_r; split; try done; by left. }
  destruct (decide (alive = ∅)) as [->|Hne].
  { exists [], []. rewrite drain_unfold, decide_True by done.
    rewrite app_nil_r. split; [done|]. by left. }
  destruct (set_begin_is_Some alive Hne) as [target Hbegin].
  set (v := sched (workers_ (self m)) target).
  destruct (decide (is_running (workers_ (self m)) v)) as [Hrun|Hidle].
  - rewrite (drain_step fuel alive m target v) by done.
    edestruct (IH (alive ∖ {[v]})) as (its & tail & -> & Hrun'); [| |];
      [done..|].
    exists ((target, v) :: its), tail. simpl.
    split; [by rewrite <- !app_assoc|]. done.
  - rewrite (drain_stuck fuel alive m target) by done.
    exists [], [ev_external_enqueue target; ev_mtx_lock]. simpl.
    split; [done|]. right. by exists target.
Qed.

Lemma stop_shape fuel m :
  ∃ lr its tail rest A,
    trace (stop fuel m).2 = trace m ++ lr ++ (drain_phase its ++ tail) ++ rest ∧
    Forall (λ e, phase_of e ≠ in_drain) lr ∧
    drain_run A its tail ∧
    Forall (λ e, phase_of e ≠ in_drain) rest.
Proof.
  unfold stop.
  erewrite bind_Ok by done. erewrite bind_Ok by done.
  set (m0 := {| self := self m; sh := shutdown_helper_ctor; trace := trace m |}).
  destruct (insert_workers_any (seq 0 (num_workers_ (self m))) ∅ m0)
    as (Hs & Hm & Hl & (l1 & Ht1 & HF1) & _).
  destruct (insert_workers _ _ m0) as [[A|f] m1] eqn:E1; simpl in *;
    last first.
  { erewrite bind_Fault by done. exists l1, [], [], [], ∅. simpl.
    rewrite app_nil_r. split_and!; try done. by left. }
  erewrite bind_Ok by done.
  destruct (drain_shape fuel A m1) as (its & tail & Ht2 & Hrun);
    [congruence..|].
  destruct (drain fuel A m1) as [[A'|f] m2] eqn:E2; simpl in *; last first.
  { erewrite bind_Fault by done. exists l1, its, tail, [], A. simpl.
    rewrite Ht2, Ht1, app_nil_r, <- !app_assoc. done. }
  erewrite bind_Ok by done.
  destruct (steps_after_drain m2) as [_ (l3 & Ht3 & HF3)].
  exists l1, its, tail, l3, A. rewrite Ht3, Ht2, Ht1, <- !app_assoc.
  split_and!; try done.
  eapply Forall_impl; [done|].
  intros e [He|[He|He]]; by rewrite He.
Qed.

Lemma drain_run_tail alive its tail :
  drain_run alive its tail →
  stored_by tail = [] ∧ woken_by tail = [] ∧ length (submitted_to tail) ≤ 1.
Proof.
  revert alive. induction its as [|it its IH]; intros alive; simpl.
  - intros [->|(t & _ & ->)]; simpl; split_and!; try done; lia.
  - intros [_ H]. by eapply IH.
Qed.

Lemma drain_run_first alive its tail t :
  drain_run alive its tail →
  submitted_to (drain_phase its ++ tail) !! 0 = Some t →
  set_begin alive = Some t.
Proof.
  destruct its as [|it its]; simpl.
  - intros [->|(t' & Hb & ->)]; simpl; [done|]. by intros [= <-].
  - intros [Hb _] [= <-]. done.
Qed.

Lemma drain_run_targets its : ∀ alive tail i t r t',
  drain_run alive its tail →
  submitted_to (drain_phase its ++ tail) !! i = Some t →
  woken_by (drain_phase its ++ tail) !! i = Some r →
  submitted_to (drain_phase its ++ tail) !! S i = Some t' →
  if decide (r = t) then (t < t')%positive else t' = t.
Proof.
  induction its as [|it its IH]; intros alive tail i t r t' Hrun Ht Hr Ht'.
  { apply drain_run_tail in Hrun as (_ & Hw & _).
    change (woken_by tail !! i = Some r) in Hr. by rewrite Hw in Hr. }
  destruct Hrun as [Hbegin Hrun].
  change (drain_phase (it :: its) ++ tail)
    with (iteration_events it ++ (drain_phase its ++ tail)) in *.
  unfold submitted_to, woken_by in *. simpl in *.
  fold (submitted_to (drain_phase its ++ tail)) in *.
  fold (woken_by (drain_phase its ++ tail)) in *.
  destruct i as [|i]; simpl in *.
  - injection Ht as <-. injection Hr as <-.
    apply (drain_run_first _ _ _ t') in Hrun; [|done].
    apply set_begin_Some in Hbegin as [Hin Hmin].
    apply set_begin_Some in Hrun as [Hin' Hmin'].
    apply elem_of_difference in Hin' as [Hin' Hne'].
    case_decide as Heq.
    + specialize (Hmin _ Hin'). rewrite Heq in Hne'.
      assert (t' ≠ it.1) by env_set_solver. lia.
    + assert (it.1 ∈ alive ∖ {[it.2]}) as Hstill by env_set_solver.
      specialize (Hmin _ Hin'). specialize (Hmin' _ Hstill). lia.
  - by eapply IH.
Qed.

(** X9: no wake-up of [stop] is stale or lost.  In every run of [stop],
    whatever its outcome, the values stored in [last_worker] are exactly the
    workers that the waits of the drain loop return, in the same order: a
    null pointer is never stored, every store is consumed by one wait, and
    no wait returns a value left over from an earlier iteration (the loop
    resets [last_worker] before it waits again). *)
Theorem stop_consumes_every_report_once (fuel : nat) (m : machine) :
  ∃ l,
    trace (stop fuel m).2 = trace m ++ l ∧
    stored_by l = Some <$> woken_by l.
Proof.
  destruct (stop_shape fuel m)
    as (lr & its & tail & rest & A & Ht & Hlr & Hrun & Hrest).
  eexists. split; [exact Ht|].
  apply drain_run_tail in Hrun as (Hs & Hw & _).
  rewrite !stored_by_app, !woken_by_app, Hs, Hw.
  rewrite (stored_by_outside_drain lr), (stored_by_outside_drain rest) by done.
  destruct (outside_drain lr Hlr) as [_ ->].
  destruct (outside_drain rest Hrest) as [_ ->].
  rewrite stored_by_drain_phase, woken_by_drain_phase.
  by rewrite !app_nil_r.
Qed.

(** X10: the submissions of [stop] follow the order of the set.  In every
    run, whatever its outcome, at most one submission is unanswered (the
    last one); and after the wake-up that answers a submission to [t] by
    worker [r], the next submission is to [t] again if another worker
    answered ([r ≠ t]: the sentinel was stolen), and to a strictly larger
    address if [t] itself did. *)
Theorem stop_resubmits_until_the_target_reports (fuel : nat) (m : machine) :
  ∃ l,
    trace (stop fuel m).2 = trace m ++ l ∧
    length (woken_by l) ≤ length (submitted_to l) ≤ S (length (woken_by l)) ∧
    ∀ i t r t',
      submitted_to l !! i = Some t →
      woken_by l !! i = Some r →
      submitted_to l !! S i = Some t' →
      if decide (r = t) then (t < t')%positive else t' = t.
Proof.
  destruct (stop_shape fuel m)
    as (lr & its & tail & rest & A & Ht & Hlr & Hrun & Hrest).
  eexists. split; [exact Ht|].
  destruct (outside_drain lr Hlr) as [Hlr1 Hlr2].
  destruct (outside_drain rest Hrest) as [Hrest1 Hrest2].
  rewrite (submitted_to_app lr), (woken_by_app lr), Hlr1, Hlr2.
  rewrite (submitted_to_app _ rest), (woken_by_app _ rest), Hrest1, Hrest2.
  rewrite !app_nil_r, !app_nil_l. split.
  - pose proof (drain_run_tail _ _ _ Hrun) as (_ & Hw & Hone).
    rewrite submitted_to_app, woken_by_app, Hw, app_nil_r, length_app.
    rewrite submitted_to_drain_phase, woken_by_drain_phase, !length_fmap.
    lia.
  - intros i t r t'. by apply drain_run_targets with (alive := A).
Qed.


(** ** [resume] without an execution unit *)

(** X11: [resume] called with a null execution unit.  With runtime checks
    the assertion fails before the mutex is taken and nothing changes.
    Without them the call goes through: it stores the null pointer,
    notifies and still asks for the shutdown of the caller; but the
    predicate of the wait in [stop] stays false, so the notification wakes
    nobody up. *)
Theorem resume_without_execution_unit (max_steps : nat) (m : machine) :
  mtx (sh m) = false →
  if caf_enable_runtime_checks
  then shutdown_helper_resume nullptr max_steps m = (Fault assertion_failure, m)
  else
    ∃ m',
      shutdown_helper_resume nullptr max_steps m =
        (Ok shutdown_execution_unit, m') ∧
      last_worker (sh m') = nullptr ∧
      cv (sh m') = S (cv (sh m)) ∧
      self m' = self m ∧
      trace m' = trace m ++ [ev_mtx_lock; ev_store_last_worker nullptr;
                             ev_cv_notify_all; ev_mtx_unlock] ∧
      cv_wait m' = (Fault blocks_forever, m').
Proof.
  intros Hfree.
  unfold shutdown_helper_resume, caf_assert, mtx_lock, store_last_worker,
    cv_notify_all, mtx_unlock, cv_wait.
  rewrite bool_decide_eq_false_2 by (intros H; by apply H).
  destruct caf_enable_runtime_checks; simpl; [done|].
  unfold_M. simpl. rewrite Hfree. simpl.
  eexists. split; [done|]. simpl. split_and!; try done.
  by rewrite <- !app_assoc.
Qed.

(** ** [start] on a pool that is not empty *)

(** X12: [start] does not clear the pool.  Called on a coordinator whose
    pool holds workers already, none with a joinable thread (a [start]
    after a [stop] that returned), it appends [num_workers()] new workers,
    numbered from 0 again, behind the old ones; the launch loop then runs
    over the whole vector, so it starts the old workers again, in pool
    order, before the new ones, and [super::start] follows.  The worker
    constructed with index i sits at position i past the old pool, and
    [worker_by_id] at an old position still returns the old worker. *)
Theorem start_appends_to_the_pool (m : machine) :
  Forall (λ u, this_thread_ (pointee u) = no_thread ∨
               this_thread_ (pointee u) = joined) (workers_ (self m)) →
  let addrs := new_addrs (num_workers_ (self m)) (pool (self m)) in
  ∃ m',
    start m = (Ok tt, m') ∧
    workers_ (self m') =
      (map_pointee (set_thread running) <$> workers_ (self m)) ++
      imap (launched (self m)) addrs ∧
    trace m' = trace m ++ construct_phase (self m) addrs ++
               launch_phase (pool (self m) ++ addrs) ++ [ev_super_start] ∧
    length (workers_ (self m')) =
      length (workers_ (self m)) + num_workers_ (self m) ∧
    (∀ i a, addrs !! i = Some a →
       workers_ (self m') !! (length (workers_ (self m)) + i) =
         Some (launched (self m) i a)) ∧
    (∀ i u, workers_ (self m) !! i = Some u →
       worker_by_id i m' = (Ok (get u), m')).
Proof.
  intros _ addrs.
  assert (start m =
            (Ok tt,
             {| self := set_workers
                          ((map_pointee (set_thread running) <$>
                              workers_ (self m)) ++
                           imap (launched (self m)) addrs) (self m);
                sh := sh m;
                trace := trace m ++ construct_phase (self m) addrs ++
                         launch_phase (pool (self m) ++ addrs) ++
                         [ev_super_start] |})) as Hstart.
  { unfold start.
    erewrite bind_Ok by done.
    erewrite bind_Ok by apply emplace_back_loop_ok.
    erewrite bind_Ok; last first.
    { apply (for_each_worker_ok worker_start
               (λ _, True)
               (map_pointee (set_thread running))
               (λ u, [ev_worker_start (get u)])).
      - intros x u m' Hx _. by apply worker_start_ok.
      - by apply Forall_true. }
    unfold super_start. unfold_M. simpl. fold addrs. f_equal. f_equal.
    - unfold set_workers. simpl. f_equal.
      rewrite fmap_app, fmap_imap. done.
    - rewrite <- !app_assoc. unfold construct_phase, launch_phase.
      do 2 f_equal. f_equal.
      rewrite (concat_singletons (ev_worker_start ∘ get)).
      rewrite list_fmap_compose. f_equal.
      rewrite fmap_app. f_equal.
      rewrite fmap_imap, (imap_ext _ (const id)) by done.
      by rewrite imap_const, list_fmap_id. }
  eexists. split; [exact Hstart|]. cbn [self trace workers_ set_workers].
  split_and!; try done.
  - unfold addrs.
    by rewrite length_app, length_fmap, length_imap, length_new_addrs.
  - intros i a Ha. rewrite lookup_app_r by (rewrite length_fmap; lia).
    rewrite length_fmap.
    replace (length (workers_ (self m)) + i - length (workers_ (self m)))
      with i by lia.
    by rewrite launched_lookup, Ha.
  - intros i u Hu. unfold worker_by_id.
    erewrite bind_Ok; last first.
    { apply workers_at_ok. simpl.
      rewrite lookup_app_l by (rewrite length_fmap; by eapply lookup_lt_Some).
      by rewrite list_lookup_fmap, Hu. }
    done.
Qed.

End coordinator.

(** * A concrete pool *)

(** A policy with one queue per worker and one central queue:
    [central_enqueue] appends to the central queue, and the enumerations
    empty the queue they visit. *)
Definition queue_policy : Policy.
Proof.
  refine {| coordinator_data := list resumable;
            worker_data := list resumable;
            coordinator_data_ctor := λ _, [];
            worker_data_ctor := λ _, [];
            central_enqueue := λ q ds job, (q ++ [job], ds);
            worker_queue := λ q, q;
            central_queue := λ q, q;
            foreach_resumable := λ q, (q, []);
            foreach_central_resumable := λ q, (q, []) |}; done.
Defined.

(** An allocator that hands out the address after the greatest live one. *)
Definition bump_alloc (live : list addr) : addr :=
  (foldr Pos.max 1 live + 1)%positive.

(** A schedule without stealing, and one in which every submission is
    stolen by the last worker of the pool that is still running (the
    schedule of scenario C of the spec when the pool has two workers). *)
Definition no_stealing `{policy : Policy} (ws : list unique_ptr) (target : addr)
  : addr := target.

Definition steal_to_last `{policy : Policy} (ws : list unique_ptr)
    (target : addr) : addr :=
  match last (filter (λ u, is_running ws (get u)) ws) with
  | Some u => get u
  | None => target
  end.

(** A schedule that hands every submission to the first worker of the pool,
    running or not: it is not live. *)
Definition always_first `{policy : Policy} (ws : list unique_ptr)
    (target : addr) : addr :=
  match ws with
  | u :: _ => get u
  | [] => target
  end.

(** Run loops that resume no job while [stop] runs; and run loops that have
    resumed the first job of every local queue by the time the worker at
    address 4 gets to the sentinel, and none afterwards (scenario B of the
    spec in small: some jobs have been resumed, the others are still
    queued). *)
Definition nothing_resumed `{policy : Policy} (w : addr)
    (d : coordinator_data) (ds : list worker_data)
  : coordinator_data * list worker_data := (d, ds).

Definition fronts_resumed (w : addr) (d : @coordinator_data queue_policy)
    (ds : list (@worker_data queue_policy))
  : @coordinator_data queue_policy * list (@worker_data queue_policy) :=
  if decide (w = 4%positive) then (d, tail <$> ds) else (d, ds).

(** A freshly constructed coordinator at address 100, configured for three
    workers and five steps per resume. *)
Definition fresh3 : machine (policy := queue_policy) :=
  {| self := coordinator_ctor 100 3 5;
     sh := {| mtx := false; cv := 0; last_worker := nullptr; rc_ := 0 |};
     trace := [] |}.

(** The same coordinator once started, with jobs in its queues. *)
Definition busy_worker (a : addr) (i : nat) (q : list resumable)
  : unique_ptr (policy := queue_policy) :=
  @UniquePtr queue_policy a (@Worker queue_policy i 100 5 running q).

Definition busy3 : machine (policy := queue_policy) :=
  {| self :=
       @Coordinator queue_policy 100 3 5
         [busy_worker 2 0 [11]; busy_worker 3 1 [];
          busy_worker 4 2 [12; 13]]%positive
         [14]%positive;
     sh := {| mtx := false; cv := 0; last_worker := nullptr; rc_ := 0 |};
     trace := [] |}.

Lemma bump_alloc_fresh : new_addr_fresh bump_alloc.
Proof.
  intros live Hin.
  assert (∀ x, x ∈ live → (x ≤ foldr Pos.max 1 live)%positive) as Hmax.
  { clear Hin. induction live as [|y live IH]; intros x Hx.
    - by apply elem_of_nil in Hx.
    - simpl. apply elem_of_cons in Hx as [->|Hx]; [lia|].
      specialize (IH x Hx). lia. }
  specialize (Hmax _ Hin). unfold bump_alloc in Hmax. lia.
Qed.

Lemma steal_to_last_live `{policy : Policy} : sched_live steal_to_last.
Proof.
  intros ws target Hrun. unfold steal_to_last.
  destruct (last _) as [u|] eqn:Hlast; [|done].
  apply last_Some_elem_of in Hlast.
  by apply list_elem_of_filter in Hlast as [? _].
Qed.

Lemma busy3_started : started (self busy3).
Proof.
  split; simpl.
  - done.
  - unfold pool. simpl. repeat (apply NoDup_cons; split; [set_solver|]).
    apply NoDup_nil_2.
  - by repeat constructor.
Qed.

(** ** Runs of the concrete pool *)

(** Scenario C of the spec, on three workers: every submission goes to the
    first worker still in the set and is stolen by the last one still
    running; the reports are 4, 3, 2 and [stop] returns. *)
Example steal_to_last_run :
  (stop true 1 steal_to_last nothing_resumed 3 busy3).1 = Ok tt ∧
  submitted_to (trace (stop true 1 steal_to_last nothing_resumed 3 busy3).2) =
    [2; 2; 2]%positive ∧
  woken_by (trace (stop true 1 steal_to_last nothing_resumed 3 busy3).2) =
    [4; 3; 2]%positive ∧
  cleaned (trace (stop true 1 steal_to_last nothing_resumed 3 busy3).2) =
    [11; 12; 13; 14]%positive.
Proof. by vm_compute. Qed.

(** Scenario A of the spec: one worker and no job; the cleanup pass touches
    no resumable. *)
Example one_idle_worker_run :
  let m := (start bump_alloc
              {| self := coordinator_ctor (policy := queue_policy) 100 1 5;
                 sh := shutdown_helper_ctor 1; trace := [] |}).2 in
  (stop true 1 no_stealing nothing_resumed 1 m).1 = Ok tt ∧
  woken_by (trace (stop true 1 no_stealing nothing_resumed 1 m).2) =
    [2]%positive ∧
  cleaned (trace (stop true 1 no_stealing nothing_resumed 1 m).2) = [].
Proof. by vm_compute. Qed.

(** A schedule that is not live: the second submission is handed to a
    worker that has terminated, and [stop] never returns. *)
Example always_first_run :
  (stop true 1 always_first nothing_resumed 3 busy3).1 = Fault blocks_forever ∧
  trace (stop true 1 always_first nothing_resumed 3 busy3).2 =
    [ev_ref; ev_ref; ev_ref;
     ev_external_enqueue 2; ev_mtx_lock; ev_store_last_worker (Some 2);
     ev_cv_notify_all; ev_mtx_unlock; ev_mtx_lock; ev_cv_wait 2; ev_mtx_unlock;
     ev_external_enqueue 3; ev_mtx_lock]%positive.
Proof. by vm_compute. Qed.

(** Fewer iterations than workers do not empty the set. *)
Example two_iterations_run :
  (stop true 1 no_stealing nothing_resumed 2 busy3).1 = Fault out_of_fuel.
Proof. by vm_compute. Qed.

(** Scenario B of the spec in small: jobs 11 and 12 have been resumed by
    the run loops when the first worker reports, so the cleanup pass is
    handed jobs 13 and 14 only. *)
Example fronts_resumed_run :
  (stop true 1 steal_to_last fronts_resumed 3 busy3).1 = Ok tt ∧
  woken_by (trace (stop true 1 steal_to_last fronts_resumed 3 busy3).2) =
    [4; 3; 2]%positive ∧
  cleaned (trace (stop true 1 steal_to_last fronts_resumed 3 busy3).2) =
    [13; 14]%positive.
Proof. by vm_compute. Qed.

(** ** The theorems at the concrete pool *)

(** The theorem of C1 on three running workers whose submissions are all
    stolen by the last running worker. *)
Lemma stop_reports_every_worker_once_witness :
  sched_live (policy := queue_policy) steal_to_last ∧
  started (self busy3) ∧
  num_workers_ (self busy3) ≤ 3 ∧
  ∃ (its : list (addr * addr)) m' l,
    stop true 1 steal_to_last nothing_resumed 3 busy3 = (Ok tt, m') ∧
    trace m' = trace busy3 ++ l ∧
    length its = 3 ∧
    woken_by l = its.*2 ∧
    its.*2 ≡ₚ [2; 3; 4]%positive.
Proof.
  split; [apply steal_to_last_live|].
  split; [apply busy3_started|].
  split; [simpl; lia|].
  destruct (stop_reports_every_worker_once true 1 steal_to_last
              nothing_resumed 3 busy3
              steal_to_last_live busy3_started (le_n 3))
    as (its & m' & l & Hstop & Htrace & _ & _ & Hlen & _ & Hwoken & Hperm).
  exists its, m', l.
  exact (conj Hstop (conj Htrace (conj Hlen (conj Hwoken Hperm)))).
Defined.

(** The theorem of C3 for a worker at address 7. *)
Lemma resume_reports_the_executing_worker_witness :
  mtx (sh fresh3) = false ∧
  ∃ m',
    shutdown_helper_resume true (Some 7%positive) 5 fresh3 =
      (Ok shutdown_execution_unit, m') ∧
    last_worker (sh m') = Some 7%positive.
Proof.
  split; [reflexivity|].
  destruct (resume_reports_the_executing_worker true 7 5 fresh3 eq_refl)
    as (m' & Hres & Hlast & _).
  exists m'. exact (conj Hres Hlast).
Defined.

(** The theorem of C4 on the same three workers. *)
Lemma stop_phases_in_order_witness :
  sched_live (policy := queue_policy) steal_to_last ∧
  started (self busy3) ∧
  num_workers_ (self busy3) ≤ 3 ∧
  ∃ its m',
    stop true 1 steal_to_last fronts_resumed 3 busy3 = (Ok tt, m') ∧
    trace m' = trace busy3 ++ (ref_phase (self busy3) ++ drain_phase its) ++
               [ev_stop_actors] ++ join_phase (self busy3) ++
               cleanup_phase (works fronts_resumed its.*2 (self busy3)).
Proof.
  split; [apply steal_to_last_live|].
  split; [apply busy3_started|].
  split; [simpl; lia|].
  destruct (stop_phases_in_order true 1 steal_to_last fronts_resumed 3 busy3
              steal_to_last_live busy3_started (le_n 3))
    as (its & m' & Hstop & Htrace & _).
  exists its, m'. exact (conj Hstop Htrace).
Defined.

(** The theorem of C5: jobs 11, 12 and 13 sit in worker queues and job 14 in
    the central queue when [stop] is called; the run loops resume jobs 11
    and 12 before the first worker reports, so jobs 13 and 14 are what is
    queued when the drain loop returns and what the pass cleans up. *)
Lemma stop_cleans_every_queued_resumable_once_witness :
  sched_live (policy := queue_policy) steal_to_last ∧
  started (self busy3) ∧
  num_workers_ (self busy3) ≤ 3 ∧
  queued (self busy3) = [11; 12; 13; 14]%positive ∧
  ∃ its m',
    stop true 1 steal_to_last fronts_resumed 3 busy3 = (Ok tt, m') ∧
    queued (self (drained 1 fronts_resumed its busy3)) = [13; 14]%positive ∧
    cleaned (cleanup_phase (self (drained 1 fronts_resumed its busy3))) ≡ₚ
      [13; 14]%positive.
Proof.
  split; [apply steal_to_last_live|].
  split; [apply busy3_started|].
  split; [simpl; lia|].
  split; [reflexivity|].
  destruct (stop_cleans_every_queued_resumable_once true 1 steal_to_last
              fronts_resumed 3 busy3 steal_to_last_live busy3_started (le_n 3))
    as (its & m' & before & Hdrain & _ & _ & Hstop & _ & _ & _ & _ & Hperm & _).
  assert (queued (self (drained 1 fronts_resumed its busy3)) =
            [13; 14]%positive) as Hqueued.
  { apply (f_equal snd) in Hdrain. cbn [snd] in Hdrain.
    rewrite <- Hdrain. vm_compute. reflexivity. }
  exists its, m'. split; [exact Hstop|]. split; [exact Hqueued|].
  rewrite Hqueued in Hperm. exact Hperm.
Defined.

(** The theorem of C7 for index 1 of three workers. *)
Lemma worker_by_id_after_start_witness :
  new_addr_fresh bump_alloc ∧
  ∃ a u,
    worker_by_id 1 (start bump_alloc fresh3).2 =
      (Ok a, (start bump_alloc fresh3).2) ∧
    find_worker a (workers_ (self (start bump_alloc fresh3).2)) = Some u ∧
    id_ (pointee u) = 1.
Proof.
  split; [apply bump_alloc_fresh|].
  pose proof (worker_by_id_after_start (policy := queue_policy)
                bump_alloc 100 3 5
                {| mtx := false; cv := 0; last_worker := nullptr; rc_ := 0 |}
                [] 1 bump_alloc_fresh) as Hspec.
  cbv zeta in Hspec. destruct Hspec as (Hbelow & _ & _).
  destruct Hbelow as (a & u & Hcall & _ & _ & _ & Hfind & Hid); [lia|].
  exists a, u. exact (conj Hcall (conj Hfind Hid)).
Defined.

(** The theorem of C10: three workers and a sentinel that starts with one
    reference. *)
Lemma stop_takes_one_reference_per_worker_witness :
  sched_live (policy := queue_policy) steal_to_last ∧
  started (self busy3) ∧
  num_workers_ (self busy3) ≤ 3 ∧
  1 ≤ 1 ∧
  ∃ m',
    stop true 1 steal_to_last nothing_resumed 3 busy3 = (Ok tt, m') ∧
    rc_ (sh (entering_drain 1 busy3)) = 4 ∧
    rc_ (sh m') = 4.
Proof.
  split; [apply steal_to_last_live|].
  split; [apply busy3_started|].
  split; [simpl; lia|].
  split; [lia|].
  destruct (stop_takes_one_reference_per_worker true 1 steal_to_last
              nothing_resumed 3 busy3
              steal_to_last_live busy3_started (le_n 3) (le_n 1))
    as (its & m' & rest & Hstop & _ & _ & _ & _ & _ & Hrc & Hrc' & _).
  exists m'. exact (conj Hstop (conj Hrc Hrc')).
Defined.

(** A schedule that hands every submission to an address at which no worker
    lives. *)
Definition to_nobody `{policy : Policy} (ws : list unique_ptr) (target : addr)
  : addr := 1000%positive.

(** The theorem of X1 on three running workers. *)
Lemma stop_blocks_on_lost_submission_witness :
  started (self busy3) ∧
  0 < num_workers_ (self busy3) ∧
  0 < 3 ∧
  (∀ target,
     ¬ is_running (workers_ (self busy3))
         (to_nobody (workers_ (self busy3)) target)) ∧
  ∃ target m',
    stop true 1 to_nobody nothing_resumed 3 busy3 = (Fault blocks_forever, m') ∧
               set_begin (list_to_set (pool (self busy3))) = Some target.
Proof.
  assert (∀ target,
            ¬ is_running (workers_ (self busy3))
                (to_nobody (workers_ (self busy3)) target)) as Hlost.
  { intros target (u & Hu & _). vm_compute in Hu. discriminate. }
  assert (0 < num_workers_ (self busy3)) as Hnum by (simpl; lia).
  assert (0 < 3) as Hfuel by lia.
  split; [apply busy3_started|].
  split; [exact Hnum|].
  split; [exact Hfuel|].
  split; [exact Hlost|].
  destruct (stop_blocks_on_lost_submission true 1 to_nobody nothing_resumed 3
              busy3
              busy3_started Hnum Hfuel Hlost)
    as (target & m' & Hstop & Hbegin & _).
  exists target, m'. exact (conj Hstop Hbegin).
Defined.

(** The theorem of X2 on the fresh coordinator. *)
Lemma start_then_stop_returns_witness :
  new_addr_fresh bump_alloc ∧
  sched_live (policy := queue_policy) steal_to_last ∧
  workers_ (self fresh3) = [] ∧
  num_workers_ (self fresh3) ≤ 3 ∧
  ∃ m1 m2,
    start bump_alloc fresh3 = (Ok tt, m1) ∧
    stop true 1 steal_to_last nothing_resumed 3 m1 = (Ok tt, m2).
Proof.
  split; [apply bump_alloc_fresh|].
  split; [apply steal_to_last_live|].
  split; [reflexivity|].
  split; [simpl; lia|].
  destruct (start_then_stop_returns true 1 bump_alloc steal_to_last
              nothing_resumed 3 fresh3
              bump_alloc_fresh steal_to_last_live eq_refl (le_n 3))
    as (m1 & m2 & Hstart & _ & Hstop & _).
  exists m1, m2. exact (conj Hstart Hstop).
Defined.

(** The theorem of X3 for job 15. *)
Lemma enqueue_keeps_started_witness :
  started (self busy3) ∧ started (self (enqueue 15%positive busy3).2).
Proof.
  split; [apply busy3_started|].
  apply (enqueue_keeps_started 15%positive busy3 busy3_started).
Defined.

(** ** Pools on which [stop] does not return *)

(** Three workers, the second of which has left its run loop. *)
Definition one_returned : machine (policy := queue_policy) :=
  {| self :=
       @Coordinator queue_policy 100 3 5
         [busy_worker 2 0 [11];
          @UniquePtr queue_policy 3 (@Worker queue_policy 1 100 5 finished []);
          busy_worker 4 2 [12; 13]]%positive
         [14]%positive;
     sh := {| mtx := false; cv := 0; last_worker := nullptr; rc_ := 0 |};
     trace := [] |}.

(** A coordinator configured without workers. *)
Definition fresh0 : machine (policy := queue_policy) :=
  {| self := coordinator_ctor 100 0 5;
     sh := {| mtx := false; cv := 0; last_worker := nullptr; rc_ := 0 |};
     trace := [ev_super_start] |}.

(** With stealing, the two running workers report and the third submission
    is lost. *)
Example one_returned_run :
  (stop true 1 steal_to_last nothing_resumed 3 one_returned).1 =
    Fault blocks_forever ∧
  submitted_to
    (trace (stop true 1 steal_to_last nothing_resumed 3 one_returned).2) =
    [2; 2; 3]%positive ∧
  woken_by
    (trace (stop true 1 steal_to_last nothing_resumed 3 one_returned).2) =
    [4; 2]%positive.
Proof. by vm_compute. Qed.

(** The theorem of X4 on that pool. *)
Lemma stop_blocks_unless_all_running_witness :
  length (workers_ (self one_returned)) = num_workers_ (self one_returned) ∧
  3%positive ∈ pool (self one_returned) ∧
  ¬ is_running (workers_ (self one_returned)) 3%positive ∧
  num_workers_ (self one_returned) ≤ 3 ∧
  ∃ m', stop true 1 steal_to_last nothing_resumed 3 one_returned =
          (Fault blocks_forever, m').
Proof.
  assert (3%positive ∈ pool (self one_returned)) as Hin.
  { unfold pool. simpl. set_solver. }
  assert (¬ is_running (workers_ (self one_returned)) 3%positive) as Hidle.
  { intros (u & Hu & Hrun). vm_compute in Hu. injection Hu as <-.
    discriminate. }
  assert (num_workers_ (self one_returned) ≤ 3) as Hfuel by (simpl; lia).
  split; [reflexivity|].
  split; [exact Hin|].
  split; [exact Hidle|].
  split; [exact Hfuel|].
  destruct (stop_blocks_unless_all_running true 1 steal_to_last
              nothing_resumed 3 one_returned
              3%positive eq_refl Hin Hidle Hfuel) as (m' & l & Hstop & _).
  exists m'. exact Hstop.
Defined.


(** The theorem of X6: [stop] on the coordinator that was never started
    reads [workers_[0]] of an empty vector. *)
Lemma stop_on_short_pool_witness :
  length (workers_ (self fresh3)) < num_workers_ (self fresh3) ∧
  worker_by_id 0
    {| self := self fresh3; sh := shutdown_helper_ctor 1; trace := [] |} =
    (Fault undefined_behaviour,
     {| self := self fresh3; sh := shutdown_helper_ctor 1; trace := [] |}) ∧
  (stop true 1 steal_to_last nothing_resumed 3 fresh3).1 =
    Fault undefined_behaviour.
Proof.
  assert (length (workers_ (self fresh3)) < num_workers_ (self fresh3))
    as Hshort by (simpl; lia).
  split; [exact Hshort|].
  pose proof (stop_on_short_pool true 1 steal_to_last nothing_resumed 3 fresh3
                Hshort) as Hspec.
  cbv zeta in Hspec.
  destruct Hspec as (_ & _ & _ & Hread & _ & Hstop).
  exact (conj Hread Hstop).
Defined.

(** The theorem of X7, with no step of the drain loop allowed. *)
Lemma stop_without_workers_witness :
  workers_ (self fresh0) = [] ∧
  num_workers_ (self fresh0) = 0 ∧
  (stop true 1 to_nobody nothing_resumed 0 fresh0).1 = Ok tt ∧
  trace (stop true 1 to_nobody nothing_resumed 0 fresh0).2 =
    [ev_super_start; ev_stop_actors; ev_foreach_central_resumable].
Proof.
  split; [reflexivity|].
  split; [reflexivity|].
  rewrite (stop_without_workers true 1 to_nobody nothing_resumed 0 fresh0
             eq_refl eq_refl).
  split; reflexivity.
Defined.

(** The theorem of X11 in a build with runtime checks. *)
Lemma resume_without_execution_unit_witness :
  mtx (sh fresh3) = false ∧
  shutdown_helper_resume true nullptr 5 fresh3 =
    (Fault assertion_failure, fresh3).
Proof.
  split; [reflexivity|].
  exact (resume_without_execution_unit true 5 fresh3 eq_refl).
Defined.

(** The three workers after a [stop] that returned. *)
Definition stopped3 : machine (policy := queue_policy) :=
  Eval vm_compute in (stop true 1 steal_to_last nothing_resumed 3 busy3).2.

(** The theorem of X12: [start] after [stop] on three workers. *)
Lemma start_appends_to_the_pool_witness :
  Forall (λ u, this_thread_ (pointee u) = no_thread ∨
               this_thread_ (pointee u) = joined) (workers_ (self stopped3)) ∧
  ∃ m',
    start bump_alloc stopped3 = (Ok tt, m') ∧
    pool (self m') = [2; 3; 4; 5; 6; 7]%positive ∧
    worker_by_id 0 m' = (Ok 2%positive, m').
Proof.
  assert (Forall (λ u, this_thread_ (pointee u) = no_thread ∨
                       this_thread_ (pointee u) = joined)
            (workers_ (self stopped3))) as Hjoined.
  { repeat (apply Forall_cons; split; [right; reflexivity|]).
    apply Forall_nil_2. }
  split; [exact Hjoined|].
  pose proof (start_appends_to_the_pool bump_alloc stopped3 Hjoined) as Hspec.
  cbv zeta in Hspec.
  destruct Hspec as (m' & Hstart & Hworkers & _ & _ & _ & Hold).
  exists m'. split; [exact Hstart|]. split.
  - unfold pool. rewrite Hworkers. vm_compute. reflexivity.
  - exact (Hold 0 _ eq_refl).
Defined.
